(** * chonkie: the [BaseEmbeddings] contract

    A shallow embedding of [src/chonkie/embeddings/base.py].

    The class is abstract: [embed] (and, optionally, [embed_batch] and
    [is_available]) come from a concrete provider.  A provider is therefore a
    record of methods, the base class's own methods are functions of that
    record ([self]), and method resolution picks the provider's override when
    there is one and the base implementation otherwise.

    Python code raises and mutates, so every method runs in a small state and
    exception monad over a [World]: the interpreter's runtime (what
    [sys.modules] holds, which modules the finders locate and which of them
    fail to load, whether the module global [np] of base.py is bound), the
    provider's own state, and a ghost trace of the method invocations
    ([embed], [is_available]) that go through the instance. *)

From Stdlib Require Import List String Ascii ZArith Bool Lia Reals Lra.
From Stdlib Require Import DecimalString DecimalNat.
From Stdlib Require Import Floats.SpecFloat.
Import ListNotations.
Local Open Scope string_scope.
Local Open Scope list_scope.

(** ** Python values and exceptions *)

(** One-dimensional [np.ndarray] of floats: the spec's Vector. *)
Definition ndarray := list spec_float.

(** The values a caller can pass to [__call__]; [isinstance] looks at the
    outermost constructor only. *)
#[warnings="-register-all"]
Inductive pyval : Type :=
| PyNone
| PyBool (b : bool)
| PyInt (z : Z)
| PyFloat (f : spec_float)
| PyStr (s : string)
| PyList (items : list pyval)
| PyTuple (items : list pyval)
| PyArray (a : ndarray).

Definition isinstance_str (v : pyval) : bool :=
  match v with PyStr _ => true | _ => false end.

Definition isinstance_list (v : pyval) : bool :=
  match v with PyList _ => true | _ => false end.

(** Exceptions, by class, with their message. [ModuleNotFoundError] is what a
    failing [import] statement raises; [ProviderError] stands for whatever a
    concrete provider raises under a class of its own. *)
Inductive exn : Type :=
| ValueError (msg : string)
| ImportError (msg : string)
| ModuleNotFoundError (msg : string)
| NameError (msg : string)
| TypeError (msg : string)
| NotImplementedError
| ProviderError (cls msg : string).

Inductive result (A : Type) : Type :=
| Ok (a : A)
| Raise (e : exn).
Arguments Ok {A} a.
Arguments Raise {A} e.



(** ** The interpreter state *)

(** The [__spec__] attribute of a module object: a [ModuleSpec], as the
    import system leaves it; [None]; or no such attribute (the last two are
    what a module object made by hand and put into [sys.modules] has). *)
Inductive spec_attr : Type :=
| SpecSet
| SpecNone
| SpecUnset.

(** What [sys.modules] holds under a name: [None], which blocks the import of
    that name, or a module object. *)
Inductive sys_entry : Type :=
| Blocked
| Loaded (module : string) (spec : spec_attr).

(** [installed]: the top-level modules that the finders of [sys.meta_path]
    locate on disk.
    [np]: the module-level global [np] of base.py, with the module object it
    is bound to; it is unbound ([None]) when base.py is loaded, because the
    only top-level import of numpy sits under [if TYPE_CHECKING].
    [sys_modules]: the cache of loaded modules, the first entry of a name
    being the one in force.
    [broken]: the located modules whose code raises when it is executed (a
    broken installation), with what it raises. *)
Record Runtime : Type := {
  installed : list string;
  np : option string;
  sys_modules : list (string * sys_entry);
  broken : list (string * exn)
}.

Fixpoint assoc {A : Type} (name : string) (l : list (string * A)) : option A :=
  match l with
  | [] => None
  | (k, v) :: rest => if String.eqb name k then Some v else assoc name rest
  end.

(** Method invocations on the instance, in order (ghost state: no method can
    read it). *)
Inductive event : Type :=
| EvIsAvailable
| EvEmbed (text : pyval).

(** [importlib.util.find_spec(name)] for a top-level module; the spec it
    returns is stood for by the name.  A name in [sys.modules] is answered
    from there: [None] for a blocked name, the module's [__spec__] when it
    is set, and [ValueError] when it is [None] or missing.  Any other name
    is looked for by the finders, without importing anything. *)
Definition find_spec (name : string) (r : Runtime) : result (option string) :=
  match assoc name (sys_modules r) with
  | Some Blocked => Ok None
  | Some (Loaded _ SpecSet) => Ok (Some name)
  | Some (Loaded _ SpecNone) =>
      Raise (ValueError (String.append name ".__spec__ is None"))
  | Some (Loaded _ SpecUnset) =>
      Raise (ValueError (String.append name ".__spec__ is not set"))
  | None =>
      Ok (if existsb (String.eqb name) (installed r) then Some name else None)
  end.

(** What the statement [import numpy] gets: the module object that
    [sys.modules] holds, whatever it is; or else the module that the finders
    locate, once its code has run without raising; or an error. *)
Definition import_numpy (r : Runtime) : result string :=
  match assoc "numpy" (sys_modules r) with
  | Some Blocked =>
      Raise (ModuleNotFoundError "import of numpy halted; None in sys.modules")
  | Some (Loaded m _) => Ok m
  | None =>
      if existsb (String.eqb "numpy") (installed r) then
        match assoc "numpy" (broken r) with
        | Some e => Raise e
        | None => Ok "numpy"
        end
      else Raise (ModuleNotFoundError "No module named 'numpy'")
  end.

(** The runtime once [import numpy as np] has completed with the module
    [m]: a module that had to be loaded is in [sys.modules] from then on,
    with the spec it was loaded from, and the global [np] is bound. *)
Definition imported_as_np (m : string) (r : Runtime) : Runtime :=
  {| installed := installed r;
     np := Some m;
     sys_modules :=
       match assoc "numpy" (sys_modules r) with
       | Some _ => sys_modules r
       | None => ("numpy", Loaded m SpecSet) :: sys_modules r
       end;
     broken := broken r |}.

Section Exec.
(** The provider's own state (a model handle, a client, a cache, ...). *)
Variable S : Type.

Record World : Type := {
  rt : Runtime;
  pstate : S;
  trace : list event
}.

Definition M (A : Type) : Type := World -> result A * World.

Definition ret {A} (a : A) : M A := fun w => (Ok a, w).

Definition raise {A} (e : exn) : M A := fun w => (Raise e, w).

Definition bind {A B} (m : M A) (k : A -> M B) : M B :=
  fun w =>
    match m w with
    | (Ok a, w') => k a w'
    | (Raise e, w') => (Raise e, w')
    end.

Definition fmap {A B} (f : A -> B) (m : M A) : M B :=
  bind m (fun a => ret (f a)).

Definition log (e : event) : M unit :=
  fun w => (Ok tt, {| rt := rt w; pstate := pstate w; trace := trace w ++ [e] |}).

(** The body of a provider method: it sees and changes the provider's own
    state only. *)
Definition lift {A} (f : S -> result A * S) : M A :=
  fun w =>
    let '(r, s') := f (pstate w) in
    (r, {| rt := rt w; pstate := s'; trace := trace w |}).

(** The list comprehension [[f(x) for x in xs]]: the elements are evaluated
    left to right, and the first exception leaves the comprehension with
    nothing built. *)
Fixpoint comprehension {A B} (f : A -> M B) (xs : list A) : M (list B) :=
  match xs with
  | [] => ret []
  | x :: rest =>
      bind (f x) (fun y =>
      bind (comprehension f rest) (fun ys =>
      ret (y :: ys)))
  end.

(** [global np; import numpy as np]: binds the module global to whatever
    module the import gets, and raises what the import raises, leaving
    everything as it was.  The import does not look at what the module
    provides: a module made by hand or an empty namespace package named
    numpy is bound like the numpy package. *)
Definition import_numpy_as_np : M unit :=
  fun w =>
    match import_numpy (rt w) with
    | Ok m =>
        (Ok tt, {| rt := imported_as_np m (rt w);
                   pstate := pstate w; trace := trace w |})
    | Raise e => (Raise e, w)
    end.

(** What a concrete subclass supplies. [embed] is abstract in the base
    class; the other two are the base class's methods unless overridden.  An
    overriding availability check is any code: it may raise, change the
    provider's state, and read and change the runtime (a check that tries
    an import loads modules). *)
Record Provider : Type := {
  embed : pyval -> S -> result ndarray * S;
  embed_batch_override : option (list pyval -> S -> result (list ndarray) * S);
  is_available_override : option (Runtime -> S -> result bool * Runtime * S)
}.
End Exec.

Arguments rt {S} _.
Arguments pstate {S} _.
Arguments trace {S} _.
Arguments Build_World {S} _ _ _.
Arguments ret {S A} a _.
Arguments raise {S A} e _.
Arguments bind {S A B} m k _.
Arguments fmap {S A B} f m _.
Arguments log {S} e _.
Arguments lift {S A} f _.
Arguments comprehension {S A B} f xs _.
Arguments import_numpy_as_np {S} _.
Arguments embed {S} _ _ _.
Arguments embed_batch_override {S} _.
Arguments is_available_override {S} _.

Declare Scope py_scope.
Delimit Scope py_scope with py.
Notation "x <- m ;; k" := (bind m (fun x => k))
  (at level 100, m at next level, right associativity) : py_scope.

(** ** numpy, as far as [similarity] uses it

    numpy is not part of the repository.  Its scalar arithmetic is IEEE 754
    and is taken from [SpecFloat]; [prec] and [emax] are the format of the
    arrays' dtype (24 and 128 for float32, 53 and 1024 for float64).  The
    order in which [np.dot] adds the products is not fixed by numpy's
    interface, so the reduction is a parameter. *)
(** A natural number in decimal, as [str] prints it. *)
Definition repr_nat (n : nat) : string := NilEmpty.string_of_uint (Nat.to_uint n).

(** The message of numpy for two one-dimensional arrays of lengths [n] and
    [m] that cannot be multiplied: for 3 and 2,
    "shapes (3,) and (2,) not aligned: 3 (dim 0) != 2 (dim 0)". *)
Definition shapes_not_aligned (n m : nat) : string :=
  String.append "shapes ("
    (String.append (repr_nat n)
       (String.append ",) and ("
          (String.append (repr_nat m)
             (String.append ",) not aligned: "
                (String.append (repr_nat n)
                   (String.append " (dim 0) != "
                      (String.append (repr_nat m) " (dim 0)"))))))).

Module numpy.
Section Dtype.
Variables prec emax : Z.
Variable reduce : list spec_float -> spec_float.

(** [a.T]: transposing a one-dimensional array returns it unchanged. *)
Definition T (a : ndarray) : ndarray := a.

Definition products (u v : ndarray) : list spec_float :=
  map (fun xy => SFmul prec emax (fst xy) (snd xy)) (combine u v).

(** [np.dot] of two one-dimensional arrays: the inner product; arrays of
    different lengths are refused, with a message that names the two shapes
    in the order of the arguments. *)
Definition dot (u v : ndarray) : result spec_float :=
  if Nat.eqb (List.length u) (List.length v)
  then Ok (reduce (products u v))
  else Raise (ValueError (shapes_not_aligned (List.length u) (List.length v))).

(** [np.linalg.norm] with its defaults, for a real one-dimensional array:
    numpy computes [sqrt(x.dot(x))]. *)
Definition linalg_norm (x : ndarray) : spec_float :=
  SFsqrt prec emax (reduce (products x x)).

(** [np.float32(x)]: [x] rounded to binary32. *)
Definition float32 (x : spec_float) : spec_float :=
  match x with
  | S754_finite s m e => binary_round 24 128 s m e
  | _ => x
  end.
End Dtype.

(** Left-to-right accumulation from [+0], the plain loop. *)
Definition sequential (prec emax : Z) (xs : list spec_float) : spec_float :=
  fold_left (SFadd prec emax) xs (S754_zero false).
End numpy.

(** ** The class *)
Module BaseEmbeddings.
Section Methods.
Context {S : Type}.
Variable self : Provider S.
Local Open Scope py_scope.

(** Invoking [self.embed(text)]. *)
Definition call_embed (text : pyval) : M S ndarray :=
  _ <- log (EvEmbed text) ;; lift (embed self text).

(** [embed_batch], lines 50-64. *)
Definition embed_batch (texts : list pyval) : M S (list ndarray) :=
  comprehension call_embed texts.

(** Invoking [self.embed_batch(texts)]: the subclass's method when it
    overrides, the base class's otherwise. *)
Definition call_embed_batch (texts : list pyval) : M S (list ndarray) :=
  match embed_batch_override self with
  | Some f => lift (f texts)
  | None => embed_batch texts
  end.

(** [is_available], lines 112-121: [find_spec("numpy") is not None]; what
    [find_spec] raises goes to the caller. *)
Definition is_available : M S bool :=
  fun w =>
    match find_spec "numpy" (rt w) with
    | Ok spec => (Ok (match spec with Some _ => true | None => false end), w)
    | Raise e => (Raise e, w)
    end.

(** Invoking [self.is_available()]. *)
Definition call_is_available : M S bool :=
  _ <- log EvIsAvailable ;;
  match is_available_override self with
  | Some f =>
      fun w =>
        let '(answer, r', s') := f (rt w) (pstate w) in
        (answer, {| rt := r'; pstate := s'; trace := trace w |})
  | None => is_available
  end.

Definition numpy_missing : string :=
  "numpy is not available. Please install it via `pip install chonkie[semantic]`".

(** [_import_dependencies], lines 66-78. *)
Definition _import_dependencies : M S unit :=
  ok <- call_is_available ;;
  if ok : bool then import_numpy_as_np else raise (ImportError numpy_missing).

(** [__init__], lines 19-33. *)
Definition __init__ : M S unit := _import_dependencies.

(** The constructor call [cls()]: the new object is handed to the caller
    only when [__init__] returns. *)
Definition construct : M S (Provider S) :=
  _ <- __init__ ;; ret self.

Definition invalid_input : string :=
  "Input must be a string or list of strings".

(** [__call__], lines 147-168. The result is a vector or a list of
    vectors. *)
Definition __call__ (text : pyval) : M S (ndarray + list ndarray) :=
  match text with
  | PyStr _ => fmap inl (call_embed text)
  | PyList texts => fmap inr (call_embed_batch texts)
  | _ => raise (ValueError invalid_input)
  end.

(** [similarity], lines 80-96, on arrays of dtype ([prec], [emax]).
    Looking up [np.float32] comes first and needs the global [np];
    [np.dot] is evaluated before the norms.  The functions of the module
    bound to [np] are numpy's: this is [similarity] where [np] is numpy. *)
Definition similarity (prec emax : Z) (reduce : list spec_float -> spec_float)
    (u v : ndarray) : M S spec_float :=
  fun w =>
    match np (rt w) with
    | None => (Raise (NameError "name 'np' is not defined"), w)
    | Some _ =>
        match numpy.dot prec emax reduce u (numpy.T v) with
        | Raise e => (Raise e, w)
        | Ok d =>
            (Ok (numpy.float32
                   (SFdiv prec emax d
                      (SFmul prec emax
                         (numpy.linalg_norm prec emax reduce u)
                         (numpy.linalg_norm prec emax reduce v)))), w)
        end
    end.
End Methods.
End BaseEmbeddings.

(** ** Concrete providers, for evaluating the contract *)

(** A provider that counts its calls in its state, embeds a string as the
    one-dimensional vector holding its length, refuses the string "boom" with
    an error of its own and a non-string with [TypeError]. *)
Definition counting_embed (text : pyval) (calls : nat) : result ndarray * nat :=
  match text with
  | PyStr s =>
      if String.eqb s "boom"
      then (Raise (ProviderError "EmbeddingFailure" "cannot embed"), Datatypes.S calls)
      else (Ok [binary_normalize 53 1024 (Z.of_nat (String.length s)) 0 false],
            Datatypes.S calls)
  | _ => (Raise (TypeError "expected str"), Datatypes.S calls)
  end.

Definition counting : Provider nat := {|
  embed := counting_embed;
  embed_batch_override := None;
  is_available_override := None
|}.


(** A fresh interpreter: base.py loaded, [np] not bound yet. *)
Definition fresh (modules : list string) : World nat := {|
  rt := {| installed := modules; np := None; sys_modules := []; broken := [] |};
  pstate := 0;
  trace := []
|}.

(** The same interpreter with [entries] in [sys.modules] and [failing] the
    modules that fail to load. *)
Definition fresh_with (modules : list string) (entries : list (string * sys_entry))
    (failing : list (string * exn)) : World nat := {|
  rt := {| installed := modules; np := None;
           sys_modules := entries; broken := failing |};
  pstate := 0;
  trace := []
|}.

(** ** State reached by the calls of a batch *)

(** The provider's state before the [i]-th [embed] call of a batch that
    started in state [s]: the calls before it ran one after another. *)
Definition state_before {S} (self : Provider S) (texts : list pyval) (s : S) (i : nat) : S :=
  fold_left (fun s t => snd (embed self t s)) (firstn i texts) s.

(** The outcome of the [i]-th [embed] call of such a batch. *)
Definition call_outcome {S} (self : Provider S) (texts : list pyval) (s : S) (i : nat)
    (t : pyval) : result ndarray :=
  fst (embed self t (state_before self texts s i)).

(** ** Predicates and providers used to state the dispatch claims *)

(** The error that [__call__] raises itself. *)
Definition raises_invalid_input {A} (r : result A) : bool :=
  match r with
  | Raise (ValueError msg) => String.eqb msg BaseEmbeddings.invalid_input
  | _ => false
  end.

(** "A sequence of strings", as the claims word it. *)
Definition list_of_str (v : pyval) : bool :=
  match v with
  | PyList items => forallb isinstance_str items
  | _ => false
  end.

(** The provider's own methods never raise the dispatch error. *)
Definition never_invalid_input {S} (self : Provider S) : Prop :=
  (forall t s, raises_invalid_input (fst (embed self t s)) = false) /\
  (forall f, embed_batch_override self = Some f ->
     forall ts s, raises_invalid_input (fst (f ts s)) = false).

(** A provider that embeds whatever it is given. *)
Definition lenient : Provider nat := {|
  embed := fun _ calls => (Ok [S754_zero false], Datatypes.S calls);
  embed_batch_override := None;
  is_available_override := None
|}.


(** ** Predicates used to state the construction claims *)


(** The world once [np] is bound to [m]. *)
Definition with_np {S} (m : string) (w : World S) : World S :=
  {| rt := {| installed := installed (rt w); np := Some m;
              sys_modules := sys_modules (rt w); broken := broken (rt w) |};
     pstate := pstate w; trace := trace w |}.





(** The world once the availability check has been invoked. *)
Definition checked {S} (w : World S) : World S :=
  {| rt := rt w; pstate := pstate w; trace := trace w ++ [EvIsAvailable] |}.

(** ** Floats: classes, comparisons and the words of the similarity claims *)

Definition is_nan (x : spec_float) : bool :=
  match x with S754_nan => true | _ => false end.

Definition is_zero (x : spec_float) : bool :=
  match x with S754_zero _ => true | _ => false end.

Definition is_infinite (x : spec_float) : bool :=
  match x with S754_infinity _ => true | _ => false end.

(** A number: zero or finite. *)
Definition is_number (x : spec_float) : bool :=
  match x with S754_zero _ | S754_finite _ _ _ => true | _ => false end.

(** [m * 2^e] as a float64, for writing inputs down. *)
Definition f64 (m e : Z) : spec_float := binary_normalize 53 1024 m e false.

(** [1.0] in binary32, the format of [similarity]'s result. *)
Definition one32 : spec_float := S754_finite false 8388608 (-23).

(** [-1.0 <= x <= 1.0], with IEEE comparisons (false on NaN). *)
Definition in_unit_interval (x : spec_float) : bool :=
  SFleb (SFopp one32) x && SFleb x one32.

(** Cosine similarity as the spec words it: the dot product of [u] and [v]
    divided by the product of their Euclidean norms. *)
Section Cosine.
Variables prec emax : Z.
Variable reduce : list spec_float -> spec_float.

Fixpoint pairwise_products (u v : list spec_float) : list spec_float :=
  match u, v with
  | x :: u', y :: v' => SFmul prec emax x y :: pairwise_products u' v'
  | _, _ => []
  end.

Definition dot_product (u v : list spec_float) : spec_float :=
  reduce (pairwise_products u v).

Definition euclidean_norm (u : list spec_float) : spec_float :=
  SFsqrt prec emax (dot_product u u).

Definition cosine_similarity (u v : list spec_float) : spec_float :=
  SFdiv prec emax (dot_product u v)
    (SFmul prec emax (euclidean_norm u) (euclidean_norm v)).
End Cosine.

(** An interpreter in which an instance has been constructed: [np] is
    bound. *)
Definition ready : World nat := with_np "numpy" (fresh ["numpy"]).

(** float64 arrays, products added left to right. *)
Definition similarity64 (u v : ndarray) : M nat spec_float :=
  BaseEmbeddings.similarity 53 1024 (numpy.sequential 53 1024) u v.

Definition norm64 (u : ndarray) : spec_float :=
  numpy.linalg_norm 53 1024 (numpy.sequential 53 1024) u.

(** ** Real values of floats, to state "within tolerance" *)

(** [2^e] for any integer [e]. *)
Definition bpow (e : Z) : R := powerRZ 2 e.

Definition F2R (m e : Z) : R := (IZR m * bpow e)%R.

(** The real number a float stands for (0 for what is not a number). *)
Definition B2R (x : spec_float) : R :=
  match x with
  | S754_finite s m e => F2R (cond_Zopp s (Zpos m)) e
  | _ => 0%R
  end.

(** [x] is a number and differs from 1 by at most [tol]. *)
Definition close_to_one (tol : R) (x : spec_float) : Prop :=
  is_number x = true /\ (Rabs (B2R x - 1) <= tol)%R.

(** A positive finite float. *)
Definition positive_finite (x : spec_float) : bool :=
  match x with S754_finite false _ _ => true | _ => false end.

(** What a rounding location says of a real [t] between [m] and [m + 1]. *)
Definition loc_ok (m : Z) (l : location) (t : R) : Prop :=
  match l with
  | loc_Exact => t = IZR m
  | loc_Inexact Lt => (IZR m < t < IZR m + / 2)%R
  | loc_Inexact Eq => t = (IZR m + / 2)%R
  | loc_Inexact Gt => (IZR m + / 2 < t < IZR m + 1)%R
  end.

(** The mantissa that [binary_round_aux] keeps: the input mantissa shifted
    to the exponent of the format, then rounded to nearest, ties to even. *)
Definition rounded_mantissa (prec emax m e : Z) (l : location) : Z :=
  round_nearest_even
    (shr_m (fst (shr_fexp prec emax m e l)))
    (loc_of_shr_record (fst (shr_fexp prec emax m e l))).

(** The largest finite value of the format. *)
Definition max_value (prec emax : Z) : R := F2R (2 ^ prec - 1) (emax - prec).

(** The outcome [y] of an operation that rounds the positive real [x] to
    nearest: with [mag] the magnitude of [x] and [E] the exponent the format
    gives it, [x] lies between two consecutive multiples of [2^E], [y] is
    one of the two, and none is closer to [x] than [y]. *)
Definition rounds_to (prec emax : Z) (x : R) (y : spec_float) : Prop :=
  exists mag m1 : Z,
    (bpow (mag - 1) <= x < bpow mag)%R /\
    (0 <= m1)%Z /\
    (F2R m1 (fexp prec emax mag) <= x < F2R (m1 + 1) (fexp prec emax mag))%R /\
    (B2R y = F2R m1 (fexp prec emax mag)
     \/ B2R y = F2R (m1 + 1) (fexp prec emax mag)) /\
    (Rabs (B2R y - x) <= x - F2R m1 (fexp prec emax mag))%R /\
    (Rabs (B2R y - x) <= F2R (m1 + 1) (fexp prec emax mag) - x)%R /\
    match y with
    | S754_zero s => s = false
    | S754_finite s m e =>
        s = false /\ canonical_mantissa prec emax m e = true /\
        (e <= emax - prec)%Z
    | _ => False
    end.


(** ** The rest of the class *)
Module Super.
(** [__repr__], lines 143-145, which every subclass inherits;
    [class_name] is [self.__class__.__name__]. *)
Definition __repr__ (class_name : string) : string :=
  String.append class_name "()".
End Super.

(** ** Words for the further properties *)

(** All the values of a list of outcomes, or else the first error. *)
Fixpoint all_or_first_error {A} (rs : list (result A)) : result (list A) :=
  match rs with
  | [] => Ok []
  | Raise e :: _ => Raise e
  | Ok a :: rest =>
      match all_or_first_error rest with
      | Ok l => Ok (a :: l)
      | Raise e => Raise e
      end
  end.

(** [m * 2^e] as a float32. *)
Definition f32 (m e : Z) : spec_float := binary_normalize 24 128 m e false.

(** float32 arrays, products added left to right. *)
Definition similarity32 (u v : ndarray) : M nat spec_float :=
  BaseEmbeddings.similarity 24 128 (numpy.sequential 24 128) u v.

(** [2.0] and the float after [1.0], in binary32. *)
Definition two32 : spec_float := S754_finite false 8388608 (-22).
Definition above_one32 : spec_float := S754_finite false 8388609 (-23).

Definition zero_or_nan (x : spec_float) : bool := is_zero x || is_nan x.

(** [1.0] in the format of precision [prec]. *)
Definition one_in (prec : Z) : spec_float :=
  S754_finite false (Z.to_pos (2 ^ (prec - 1))) (1 - prec).

(** [x] with the sign [s]. *)
Definition with_sign (s : bool) (x : spec_float) : spec_float :=
  if s then SFopp x else x.

(** [u] with the sign of its [i]-th entry changed wherever the [i]-th of
    [signs] is set; entries past the end of [signs] are kept. *)
Fixpoint flip_signs (signs : list bool) (u : ndarray) : ndarray :=
  match signs, u with
  | s :: signs', x :: u' => with_sign s x :: flip_signs signs' u'
  | _, _ => u
  end.

(** No comma occurs in [s]. *)
Fixpoint no_comma (s : string) : bool :=
  match s with
  | EmptyString => true
  | String c rest => negb (Ascii.eqb c ",") && no_comma rest
  end.

(** * Theorems *)

(** ** Batches *)
Section BatchFacts.
Context {S : Type}.
Variable self : Provider S.

Lemma call_embed_run (t : pyval) (w : World S) :
  BaseEmbeddings.call_embed self t w =
    (fst (embed self t (pstate w)),
     {| rt := rt w; pstate := snd (embed self t (pstate w));
        trace := trace w ++ [EvEmbed t] |}).
Proof.
  unfold BaseEmbeddings.call_embed, bind, log, lift; simpl.
  destruct (embed self t (pstate w)) as [r s']; reflexivity.
Qed.

Lemma state_before_cons (t : pyval) (rest : list pyval) (s : S) (i : nat) :
  state_before self (t :: rest) s (Datatypes.S i) =
  state_before self rest (snd (embed self t s)) i.
Proof. reflexivity. Qed.

(** One run of the default [embed_batch], outcome by outcome. *)
Lemma embed_batch_run (texts : list pyval) :
  forall w : World S,
    match BaseEmbeddings.embed_batch self texts w with
    | (Ok vs, w') =>
        List.length vs = List.length texts /\
        rt w' = rt w /\
        trace w' = trace w ++ map EvEmbed texts /\
        forall i t, nth_error texts i = Some t ->
          exists v, nth_error vs i = Some v /\
                    call_outcome self texts (pstate w) i t = Ok v
    | (Raise e, w') =>
        rt w' = rt w /\
        exists k t,
          nth_error texts k = Some t /\
          call_outcome self texts (pstate w) k t = Raise e /\
          trace w' = trace w ++ map EvEmbed (firstn (Datatypes.S k) texts) /\
          forall j tj, j < k -> nth_error texts j = Some tj ->
            exists v, call_outcome self texts (pstate w) j tj = Ok v
    end.
Proof.
  induction texts as [|t rest IH]; intro w.
  - simpl. unfold ret. repeat split.
    + now rewrite app_nil_r.
    + intros [|i] t' H; discriminate H.
  - unfold BaseEmbeddings.embed_batch in *. simpl comprehension.
    unfold bind at 1. rewrite call_embed_run.
    destruct (fst (embed self t (pstate w))) as [v|e] eqn:Hhd.
    + set (w1 := {| rt := rt w; pstate := snd (embed self t (pstate w));
                    trace := trace w ++ [EvEmbed t] |}).
      specialize (IH w1). unfold bind at 1.
      destruct (comprehension (BaseEmbeddings.call_embed self) rest w1)
        as [[vs|e] w'] eqn:Hrest.
      * unfold ret. destruct IH as (Hlen & Hrt & Htr & Hnth).
        repeat split.
        -- simpl. now rewrite Hlen.
        -- exact Hrt.
        -- rewrite Htr. simpl. now rewrite <- app_assoc.
        -- intros [|i] t' Hi.
           ++ injection Hi as <-. exists v. split; [reflexivity| exact Hhd].
           ++ simpl in Hi. destruct (Hnth i t' Hi) as (v' & Hv' & Hout).
              exists v'. split; [exact Hv'|].
              unfold call_outcome. rewrite state_before_cons. exact Hout.
      * destruct IH as (Hrt & k & tk & Hk & Hout & Htr & Hbefore).
        split; [exact Hrt|].
        exists (Datatypes.S k), tk. repeat split.
        -- exact Hk.
        -- unfold call_outcome. rewrite state_before_cons. exact Hout.
        -- rewrite Htr. simpl. now rewrite <- app_assoc.
        -- intros [|j] tj Hj Hnj.
           ++ injection Hnj as <-. exists v. exact Hhd.
           ++ simpl in Hnj. apply PeanoNat.lt_S_n in Hj.
              destruct (Hbefore j tj Hj Hnj) as (v' & Hv').
              exists v'. unfold call_outcome. rewrite state_before_cons. exact Hv'.
    + split; [reflexivity|].
      exists 0, t. repeat split.
      * exact Hhd.
      * intros j tj Hj. inversion Hj.
Qed.
End BatchFacts.

(** C1: the default [embed_batch] calls [embed] on every text, in input order
    and without skipping repeated texts.  When it returns, it returns exactly
    as many vectors as there are texts, and the [i]-th vector is what the
    [i]-th [embed] call returned (the call sees the provider state that the
    earlier calls left; for a provider whose [embed] does not depend on its
    state this is simply [embed(texts[i])]).  When it raises, it raises what
    the first failing [embed] call raised, every earlier call had succeeded,
    no later text was touched, and the caller gets no list at all. *)
Theorem embed_batch_default_is_embed_pointwise
    {S : Type} (self : Provider S) (texts : list pyval) (w : World S) :
  match BaseEmbeddings.embed_batch self texts w with
  | (Ok vs, w') =>
      List.length vs = List.length texts /\
      trace w' = trace w ++ map EvEmbed texts /\
      forall i t, nth_error texts i = Some t ->
        exists v, nth_error vs i = Some v /\
                  call_outcome self texts (pstate w) i t = Ok v
  | (Raise e, w') =>
      exists k t,
        nth_error texts k = Some t /\
        call_outcome self texts (pstate w) k t = Raise e /\
        trace w' = trace w ++ map EvEmbed (firstn (Datatypes.S k) texts) /\
        forall j tj, j < k -> nth_error texts j = Some tj ->
          exists v, call_outcome self texts (pstate w) j tj = Ok v
  end.
Proof.
  pose proof (embed_batch_run self texts w) as H.
  destruct (BaseEmbeddings.embed_batch self texts w) as [[vs|e] w'].
  - destruct H as (Hlen & _ & Htr & Hnth). auto.
  - destruct H as (_ & H). exact H.
Qed.

(** The spec's scenario: three texts give three vectors, in the order of the
    texts, and the same text twice gives two vectors. *)
Example embed_batch_abc :
  fst (BaseEmbeddings.embed_batch counting
         [PyStr "a"; PyStr "bb"; PyStr "ccc"; PyStr "a"] (fresh ["numpy"])) =
  Ok [ [S754_finite false 4503599627370496 (-52)];
       [S754_finite false 4503599627370496 (-51)];
       [S754_finite false 6755399441055744 (-51)];
       [S754_finite false 4503599627370496 (-52)] ].
Proof. vm_compute. reflexivity. Qed.

(** A failing text in the middle: the batch raises its error, and the third
    text is never embedded. *)
Example embed_batch_boom :
  BaseEmbeddings.embed_batch counting
    [PyStr "a"; PyStr "boom"; PyStr "c"] (fresh ["numpy"]) =
  (Raise (ProviderError "EmbeddingFailure" "cannot embed"),
   {| rt := rt (fresh ["numpy"]);
      pstate := 2;
      trace := [EvEmbed (PyStr "a"); EvEmbed (PyStr "boom")] |}).
Proof. vm_compute. reflexivity. Qed.

(** ** Callable dispatch *)

Section DispatchFacts.
Context {S : Type}.
Variable self : Provider S.

Lemma fmap_fst {A B} (f : A -> B) (m : M S A) (w : World S) :
  fst (fmap f m w) =
  match fst (m w) with Ok a => Ok (f a) | Raise e => Raise e end.
Proof.
  unfold fmap, bind, ret. destruct (m w) as [[a|e] w']; reflexivity.
Qed.

Lemma call_embed_batch_never_invalid_input (texts : list pyval) (w : World S) :
  never_invalid_input self ->
  raises_invalid_input (fst (BaseEmbeddings.call_embed_batch self texts w)) = false.
Proof.
  intros [Hembed Hover]. unfold BaseEmbeddings.call_embed_batch.
  destruct (embed_batch_override self) as [f|] eqn:Hf.
  - unfold lift. specialize (Hover f eq_refl texts (pstate w)).
    destruct (f texts (pstate w)) as [r s']. exact Hover.
  - pose proof (embed_batch_run self texts w) as H.
    destruct (BaseEmbeddings.embed_batch self texts w) as [[vs|e] w']; [reflexivity|].
    destruct H as (_ & k & t & _ & Hout & _). simpl.
    unfold call_outcome in Hout.
    specialize (Hembed t (state_before self texts (pstate w) k)).
    rewrite Hout in Hembed. exact Hembed.
Qed.
End DispatchFacts.

(** C3: calling the instance with a string is calling [embed] with it, and
    calling it with a list of strings is calling [embed_batch] with it: same
    outcome (value or exception) and same effects. *)
Theorem call_is_embed_or_embed_batch
    {S : Type} (self : Provider S) (t : string) (ts : list string) (w : World S) :
  BaseEmbeddings.__call__ self (PyStr t) w =
    fmap inl (BaseEmbeddings.call_embed self (PyStr t)) w /\
  BaseEmbeddings.__call__ self (PyList (map PyStr ts)) w =
    fmap inr (BaseEmbeddings.call_embed_batch self (map PyStr ts)) w /\
  fst (BaseEmbeddings.__call__ self (PyStr t) w) =
    match fst (BaseEmbeddings.call_embed self (PyStr t) w) with
    | Ok v => Ok (inl v)
    | Raise e => Raise e
    end /\
  fst (BaseEmbeddings.__call__ self (PyList (map PyStr ts)) w) =
    match fst (BaseEmbeddings.call_embed_batch self (map PyStr ts) w) with
    | Ok vs => Ok (inr vs)
    | Raise e => Raise e
    end.
Proof.
  repeat split; try reflexivity; simpl; apply fmap_fst.
Qed.

(** C10: dispatch looks at the outer type only.  Every list, whatever its
    elements, goes to [embed_batch] as it is; with the default [embed_batch]
    each element, string or not, reaches [embed]; and the dispatch error is
    never the outcome unless the provider's own code raises it. *)
Theorem call_list_goes_to_embed_batch_unvalidated
    {S : Type} (e : pyval -> S -> result ndarray * S)
    (avail : option (Runtime -> S -> result bool * Runtime * S)) (items : list pyval) (w : World S) :
  let self := {| embed := e; embed_batch_override := None;
                 is_available_override := avail |} in
  (forall (other : Provider S),
     BaseEmbeddings.__call__ other (PyList items) w =
       fmap inr (BaseEmbeddings.call_embed_batch other items) w) /\
  match BaseEmbeddings.__call__ self (PyList items) w with
  | (Ok r, w') =>
      exists vs, r = inr vs /\ List.length vs = List.length items /\
                 trace w' = trace w ++ map EvEmbed items
  | (Raise err, w') =>
      exists k t, nth_error items k = Some t /\
                  call_outcome self items (pstate w) k t = Raise err /\
                  trace w' = trace w ++ map EvEmbed (firstn (Datatypes.S k) items)
  end.
Proof.
  intro self. split; [reflexivity|].
  simpl. unfold fmap, bind, ret, BaseEmbeddings.call_embed_batch. simpl.
  pose proof (embed_batch_run self items w) as H.
  destruct (BaseEmbeddings.embed_batch self items w) as [[vs|err] w'].
  - destruct H as (Hlen & _ & Htr & _). exists vs. auto.
  - destruct H as (_ & k & t & Hk & Hout & Htr & _). exists k, t. auto.
Qed.

(** A list of integers given to a provider that embeds anything: two
    vectors, no error. *)
Example call_list_of_int_lenient :
  fst (BaseEmbeddings.__call__ lenient (PyList [PyInt 1; PyInt 2]) (fresh [])) =
  Ok (inr [[S754_zero false]; [S754_zero false]]).
Proof. reflexivity. Qed.

(** C9: on the empty list the default [embed_batch] returns the empty list
    and leaves the world as it was: the trace shows no [embed] call.  Calling
    an instance that inherits [embed_batch] with the empty list returns the
    empty list too. *)
Theorem embed_batch_empty
    {S : Type} (e : pyval -> S -> result ndarray * S)
    (avail : option (Runtime -> S -> result bool * Runtime * S)) (w : World S) :
  let self := {| embed := e; embed_batch_override := None;
                 is_available_override := avail |} in
  (forall other : Provider S, BaseEmbeddings.embed_batch other [] w = (Ok [], w)) /\
  BaseEmbeddings.__call__ self (PyList []) w = (Ok (inr []), w) /\
  trace (snd (BaseEmbeddings.__call__ self (PyList []) w)) = trace w.
Proof. intro self. repeat split. Qed.

(** C2, as amended: [__call__] raises its invalid-input error exactly when the
    argument is neither a [str] nor a [list] (its elements are not looked
    at), and then nothing else happens; a [str] goes to [embed] and every
    list goes to [embed_batch].  "Exactly" is about the dispatch: the
    provider's own methods are taken not to raise that same error. *)
Theorem call_invalid_input_iff_not_str_not_list
    {S : Type} (self : Provider S) (Hself : never_invalid_input self)
    (text : pyval) (w : World S) :
  (raises_invalid_input (fst (BaseEmbeddings.__call__ self text w)) = true <->
   isinstance_str text = false /\ isinstance_list text = false) /\
  (isinstance_str text = false -> isinstance_list text = false ->
   BaseEmbeddings.__call__ self text w =
     (Raise (ValueError BaseEmbeddings.invalid_input), w)) /\
  (isinstance_str text = true ->
   BaseEmbeddings.__call__ self text w =
     fmap inl (BaseEmbeddings.call_embed self text) w) /\
  (forall items, text = PyList items ->
   BaseEmbeddings.__call__ self text w =
     fmap inr (BaseEmbeddings.call_embed_batch self items) w).
Proof.
  assert (Hstr : forall s,
    raises_invalid_input (fst (BaseEmbeddings.__call__ self (PyStr s) w)) = false).
  { intro s. simpl. rewrite fmap_fst, call_embed_run. simpl.
    destruct Hself as [Hembed _]. specialize (Hembed (PyStr s) (pstate w)).
    destruct (fst (embed self (PyStr s) (pstate w))); [reflexivity|exact Hembed]. }
  assert (Hlist : forall items,
    raises_invalid_input (fst (BaseEmbeddings.__call__ self (PyList items) w)) = false).
  { intro items. simpl. rewrite fmap_fst.
    pose proof (call_embed_batch_never_invalid_input self items w Hself) as H.
    destruct (fst (BaseEmbeddings.call_embed_batch self items w)); [reflexivity|exact H]. }
  split; [split | split; [| split]].
  - intro H. destruct text; try (split; reflexivity).
    + now rewrite Hstr in H.
    + now rewrite Hlist in H.
  - intros [H1 H2]. destruct text; try discriminate; reflexivity.
  - intros H1 H2. destruct text; try discriminate; reflexivity.
  - intro H. destruct text; try discriminate; reflexivity.
  - intros items ->. reflexivity.
Qed.

Lemma counting_never_invalid_input : never_invalid_input counting.
Proof.
  split.
  - intros t s. destruct t; try reflexivity. simpl.
    destruct (String.eqb s0 "boom"); reflexivity.
  - intros f Hf. discriminate Hf.
Defined.

Lemma call_invalid_input_iff_not_str_not_list_witness :
  (raises_invalid_input
     (fst (BaseEmbeddings.__call__ counting (PyInt 7) (fresh ["numpy"]))) = true <->
   isinstance_str (PyInt 7) = false /\ isinstance_list (PyInt 7) = false) /\
  BaseEmbeddings.__call__ counting (PyInt 7) (fresh ["numpy"]) =
    (Raise (ValueError "Input must be a string or list of strings"), fresh ["numpy"]).
Proof.
  pose proof (call_invalid_input_iff_not_str_not_list counting
                counting_never_invalid_input (PyInt 7) (fresh ["numpy"])) as H.
  destruct H as (Hiff & Hraise & _).
  split; [exact Hiff | exact (Hraise eq_refl eq_refl)].
Defined.

(** C2 as stated fails: a list of integers is neither a string nor a
    sequence of strings, yet calling the instance with it does not raise the
    invalid-input error: a provider that embeds anything returns vectors, and
    one that insists on strings raises its own [TypeError] from [embed].  A
    tuple of strings, on the other hand, is refused. *)
Lemma call_list_of_int_is_not_invalid_input :
  isinstance_str (PyList [PyInt 1]) = false /\
  list_of_str (PyList [PyInt 1]) = false /\
  fst (BaseEmbeddings.__call__ lenient (PyList [PyInt 1]) (fresh ["numpy"])) =
    Ok (inr [[S754_zero false]]) /\
  fst (BaseEmbeddings.__call__ counting (PyList [PyInt 1]) (fresh ["numpy"])) =
    Raise (TypeError "expected str") /\
  fst (BaseEmbeddings.__call__ counting (PyTuple [PyStr "a"]) (fresh ["numpy"])) =
    Raise (ValueError "Input must be a string or list of strings").
Proof. repeat split. Qed.

(** ** Construction and the availability check *)

Section ConstructionFacts.
Context {S : Type}.
Variable self : Provider S.






End ConstructionFacts.





(** With the default check: numpy present, the instance comes with [np]
    bound and numpy is in [sys.modules] from then on; numpy absent, the
    dependency-missing error. *)
Example construct_counting_with_numpy :
  match BaseEmbeddings.construct counting (fresh ["tokenizers"; "numpy"]) with
  | (Ok _, w') =>
      np (rt w') = Some "numpy" /\ trace w' = [EvIsAvailable] /\
      sys_modules (rt w') = [("numpy", Loaded "numpy" SpecSet)]
  | (Raise _, _) => False
  end.
Proof. vm_compute. repeat split; reflexivity. Qed.

Example construct_counting_without_numpy :
  match BaseEmbeddings.construct counting (fresh ["tokenizers"]) with
  | (Raise err, w') =>
      err = ImportError
        "numpy is not available. Please install it via `pip install chonkie[semantic]`" /\
      np (rt w') = None /\ trace w' = [EvIsAvailable]
  | (Ok _, _) => False
  end.
Proof. vm_compute. repeat split; reflexivity. Qed.

(** The default check answers true for a numpy whose code fails: the error
    of construction is then the module's own, not the dependency-missing
    one.  With a numpy module made by hand in [sys.modules], construction
    fails with the [ValueError] of the check, although the import would
    bind that module. *)
Example construct_counting_broken_numpy :
  BaseEmbeddings.construct counting
    (fresh_with ["numpy"] [] [("numpy", ImportError "DLL load failed")]) =
  (Raise (ImportError "DLL load failed"),
   checked (fresh_with ["numpy"] [] [("numpy", ImportError "DLL load failed")])).
Proof. reflexivity. Qed.

Example construct_counting_stub_numpy :
  fst (BaseEmbeddings.construct counting
         (fresh_with [] [("numpy", Loaded "stub" SpecUnset)] [])) =
  Raise (ValueError "numpy.__spec__ is not set").
Proof. reflexivity. Qed.

(** ** Similarity *)
Section SimilarityFacts.
Context {S : Type}.
Variable self : Provider S.
Variables prec emax : Z.
Variable reduce : list spec_float -> spec_float.

Lemma products_pairwise (u v : ndarray) :
  numpy.products prec emax u v = pairwise_products prec emax u v.
Proof.
  unfold numpy.products. revert v.
  induction u as [|x u IH]; intros [|y v]; simpl; try reflexivity.
  now rewrite IH.
Qed.

Lemma linalg_norm_euclidean (u : ndarray) :
  numpy.linalg_norm prec emax reduce u = euclidean_norm prec emax reduce u.
Proof.
  unfold numpy.linalg_norm, euclidean_norm, dot_product.
  now rewrite products_pairwise.
Qed.

(** What [similarity] does, case by case. *)
Lemma similarity_run (u v : ndarray) (w : World S) :
  BaseEmbeddings.similarity (S:=S) prec emax reduce u v w =
  match np (rt w) with
  | None => (Raise (NameError "name 'np' is not defined"), w)
  | Some _ =>
      if Nat.eqb (List.length u) (List.length v)
      then (Ok (numpy.float32 (cosine_similarity prec emax reduce u v)), w)
      else (Raise (ValueError (shapes_not_aligned (List.length u) (List.length v))), w)
  end.
Proof.
  unfold BaseEmbeddings.similarity, numpy.dot, numpy.T, cosine_similarity.
  destruct (np (rt w)); [|reflexivity].
  destruct (Nat.eqb (List.length u) (List.length v)); [|reflexivity].
  rewrite !linalg_norm_euclidean. unfold dot_product at 1.
  now rewrite products_pairwise.
Qed.

Lemma SFmul_comm (x y : spec_float) :
  SFmul prec emax x y = SFmul prec emax y x.
Proof.
  destruct x as [sx|sx| |sx mx ex], y as [sy|sy| |sy my ey]; simpl;
    try reflexivity; try (now rewrite xorb_comm).
  now rewrite xorb_comm, Pos.mul_comm, Z.add_comm.
Qed.

Lemma pairwise_products_comm (u v : ndarray) :
  pairwise_products prec emax u v = pairwise_products prec emax v u.
Proof.
  revert v. induction u as [|x u IH]; intros [|y v]; simpl; try reflexivity.
  now rewrite IH, SFmul_comm.
Qed.

Lemma cosine_similarity_comm (u v : ndarray) :
  cosine_similarity prec emax reduce u v = cosine_similarity prec emax reduce v u.
Proof.
  unfold cosine_similarity, dot_product.
  now rewrite pairwise_products_comm, SFmul_comm.
Qed.

Lemma similarity_comm (u v : ndarray) (w : World S) :
  List.length u = List.length v ->
  BaseEmbeddings.similarity (S:=S) prec emax reduce u v w =
  BaseEmbeddings.similarity (S:=S) prec emax reduce v u w.
Proof.
  intro Hlen. rewrite !similarity_run, cosine_similarity_comm, Hlen.
  reflexivity.
Qed.
End SimilarityFacts.

Lemma SFeqb_refl (x : spec_float) : SFeqb x x = negb (is_nan x).
Proof.
  unfold SFeqb. destruct x as [s|s| |s m e]; simpl; try reflexivity.
  - now destruct s.
  - destruct s; rewrite Z.compare_refl, Pos.compare_cont_refl; reflexivity.
Qed.

(** Dividing by a zero or NaN denominator gives NaN or an infinity. *)
Lemma SFdiv_by_zero_or_nan (prec emax : Z) (x d : spec_float) :
  is_zero d || is_nan d = true ->
  is_nan (SFdiv prec emax x d) || is_infinite (SFdiv prec emax x d) = true.
Proof.
  destruct d as [sd|sd| |sd md ed]; try discriminate; intros _;
    destruct x as [sx|sx| |sx mx ex]; reflexivity.
Qed.

Lemma float32_nan_or_infinite (x : spec_float) :
  is_nan x || is_infinite x = true -> numpy.float32 x = x.
Proof. destruct x; try discriminate; reflexivity. Qed.

Lemma nan_or_infinite_not_in_unit_interval (x : spec_float) :
  is_nan x || is_infinite x = true -> in_unit_interval x = false.
Proof. destruct x as [s|[|]| |s m e]; try discriminate; reflexivity. Qed.

(** C5: on two vectors of the same length (with [np] bound, as it is once an
    instance exists) [similarity] returns one float, the binary32 rounding of
    the dot product of [u] and [v] divided by the product of their Euclidean
    norms, and changes nothing. *)
Theorem similarity_is_cosine
    {S : Type} (self : Provider S) (prec emax : Z)
    (reduce : list spec_float -> spec_float) (u v : ndarray) (w : World S)
    (Hnp : np (rt w) <> None) (Hlen : List.length u = List.length v) :
  BaseEmbeddings.similarity (S:=S) prec emax reduce u v w =
    (Ok (numpy.float32
           (SFdiv prec emax (dot_product prec emax reduce u v)
              (SFmul prec emax (euclidean_norm prec emax reduce u)
                               (euclidean_norm prec emax reduce v)))), w).
Proof.
  rewrite similarity_run.
  destruct (np (rt w)); [|now elim Hnp].
  rewrite Hlen, Nat.eqb_refl. reflexivity.
Qed.

Lemma similarity_is_cosine_witness :
  BaseEmbeddings.similarity (S:=nat) 53 1024 (numpy.sequential 53 1024)
    [f64 1 0; f64 0 0] [f64 1 0; f64 1 0] ready =
  (Ok (numpy.float32
         (SFdiv 53 1024
            (dot_product 53 1024 (numpy.sequential 53 1024)
               [f64 1 0; f64 0 0] [f64 1 0; f64 1 0])
            (SFmul 53 1024
               (euclidean_norm 53 1024 (numpy.sequential 53 1024) [f64 1 0; f64 0 0])
               (euclidean_norm 53 1024 (numpy.sequential 53 1024) [f64 1 0; f64 1 0])))),
   ready).
Proof.
  apply (similarity_is_cosine counting 53 1024 (numpy.sequential 53 1024)
           [f64 1 0; f64 0 0] [f64 1 0; f64 1 0] ready).
  - simpl. discriminate.
  - reflexivity.
Defined.

(** (1, 0) against (1, 1): 0.70710677 in binary32; (3, 4) against itself:
    exactly 1. *)
Example similarity64_diagonal :
  fst (similarity64 [f64 1 0; f64 0 0] [f64 1 0; f64 1 0] ready) =
  Ok (S754_finite false 11863283 (-24)).
Proof. vm_compute. reflexivity. Qed.

Example similarity64_self_3_4 :
  fst (similarity64 [f64 3 0; f64 4 0] [f64 3 0; f64 4 0] ready) = Ok one32.
Proof. vm_compute. reflexivity. Qed.

(** C8, as amended: [similarity] divides without looking at the denominator.
    When [u] or [v] has norm zero, the denominator is zero, or NaN when the
    other norm is infinite or NaN; either way the call returns normally, and
    what it returns is NaN or an infinity, never a score in [-1, 1]. *)
Theorem similarity_zero_norm_is_not_a_score
    {S : Type} (self : Provider S) (prec emax : Z)
    (reduce : list spec_float -> spec_float) (u v : ndarray) (w : World S)
    (Hnp : np (rt w) <> None) (Hlen : List.length u = List.length v)
    (Hzero : is_zero (numpy.linalg_norm prec emax reduce u)
             || is_zero (numpy.linalg_norm prec emax reduce v) = true) :
  let denominator :=
    SFmul prec emax (numpy.linalg_norm prec emax reduce u)
                    (numpy.linalg_norm prec emax reduce v) in
  is_zero denominator || is_nan denominator = true /\
  is_zero denominator =
    is_number (numpy.linalg_norm prec emax reduce u)
    && is_number (numpy.linalg_norm prec emax reduce v) /\
  exists r,
    BaseEmbeddings.similarity (S:=S) prec emax reduce u v w = (Ok r, w) /\
    is_nan r || is_infinite r = true /\
    in_unit_interval r = false.
Proof.
  intro denominator.
  assert (Hd : is_zero denominator || is_nan denominator = true /\
               is_zero denominator =
                 is_number (numpy.linalg_norm prec emax reduce u)
                 && is_number (numpy.linalg_norm prec emax reduce v)).
  { subst denominator.
    destruct (numpy.linalg_norm prec emax reduce u) as [su|su| |su mu eu];
      destruct (numpy.linalg_norm prec emax reduce v) as [sv|sv| |sv mv ev];
      try discriminate Hzero; split; reflexivity. }
  destruct Hd as [Hd1 Hd2]. split; [exact Hd1|]. split; [exact Hd2|].
  rewrite similarity_run.
  destruct (np (rt w)); [|now elim Hnp].
  rewrite Hlen, Nat.eqb_refl.
  eexists. split; [reflexivity|].
  unfold cosine_similarity. rewrite <- !linalg_norm_euclidean.
  fold denominator.
  pose proof (SFdiv_by_zero_or_nan prec emax
                (dot_product prec emax reduce u v) denominator Hd1) as Hq.
  rewrite (float32_nan_or_infinite _ Hq).
  split; [exact Hq|]. now apply nan_or_infinite_not_in_unit_interval.
Qed.

(** The zero-denominator case is reached through the public method: the
    zero vector against (1, 1). *)
Lemma similarity_zero_norm_is_not_a_score_witness :
  is_zero (SFmul 53 1024 (norm64 [f64 0 0; f64 0 0]) (norm64 [f64 1 0; f64 1 0])) = true /\
  exists r,
    similarity64 [f64 0 0; f64 0 0] [f64 1 0; f64 1 0] ready = (Ok r, ready) /\
    is_nan r || is_infinite r = true /\
    in_unit_interval r = false.
Proof.
  pose proof (similarity_zero_norm_is_not_a_score counting 53 1024
                (numpy.sequential 53 1024) [f64 0 0; f64 0 0] [f64 1 0; f64 1 0] ready)
    as H.
  destruct H as (_ & _ & Hr).
  - simpl. discriminate.
  - reflexivity.
  - vm_compute. reflexivity.
  - split; [vm_compute; reflexivity | exact Hr].
Defined.

Example similarity64_zero_vector :
  fst (similarity64 [f64 0 0; f64 0 0] [f64 1 0; f64 1 0] ready) = Ok S754_nan.
Proof. vm_compute. reflexivity. Qed.

(** A norm that underflows to zero under a non-zero dot product: the
    quotient is an infinity. *)
Example similarity64_underflow_infinite :
  norm64 [f64 1 (-600)] = S754_zero false /\
  fst (similarity64 [f64 1 (-600)] [f64 1 100] ready) = Ok (S754_infinity false).
Proof. vm_compute. split; reflexivity. Qed.

(** C8 as stated fails in one place: with [u] the zero vector and [v] a
    vector whose norm is infinite (here its square overflows), the norm of
    [u] is zero and the denominator is NaN, not zero. *)
Lemma zero_norm_times_infinite_norm_is_nan :
  is_zero (norm64 [f64 0 0]) = true /\
  norm64 [f64 1 600] = S754_infinity false /\
  SFmul 53 1024 (norm64 [f64 0 0]) (norm64 [f64 1 600]) = S754_nan /\
  is_zero (SFmul 53 1024 (norm64 [f64 0 0]) (norm64 [f64 1 600])) = false.
Proof. vm_compute. repeat split; reflexivity. Qed.

(** ** IEEE rounding, from the definitions of [SpecFloat]

    The error analysis below rests on one fact about [binary_round_aux]:
    whatever the rounding direction it takes, the mantissa it keeps is the
    truncated one or its successor. *)
Section Digits.
Local Open Scope Z_scope.

Lemma digits2_pos_bounds (m : positive) :
  2 ^ (Zpos (digits2_pos m) - 1) <= Zpos m < 2 ^ Zpos (digits2_pos m).
Proof.
  induction m as [m IH|m IH|]; simpl digits2_pos.
  - rewrite Pos2Z.inj_succ.
    replace (Z.succ (Zpos (digits2_pos m)) - 1) with (Z.succ (Zpos (digits2_pos m) - 1)) by lia.
    rewrite !Z.pow_succ_r by lia. lia.
  - rewrite Pos2Z.inj_succ.
    replace (Z.succ (Zpos (digits2_pos m)) - 1) with (Z.succ (Zpos (digits2_pos m) - 1)) by lia.
    rewrite !Z.pow_succ_r by lia. lia.
  - simpl. lia.
Qed.

Lemma Zdigits2_nonneg (m : Z) : 0 <= Zdigits2 m.
Proof. destruct m; simpl; lia. Qed.

Lemma Zdigits2_bounds (m : Z) :
  0 < m -> 2 ^ (Zdigits2 m - 1) <= m < 2 ^ Zdigits2 m.
Proof.
  destruct m as [|m|m]; try lia. intros _. apply digits2_pos_bounds.
Qed.

Lemma Zdigits2_succ_le (m : Z) : 0 <= m -> m + 1 <= 2 ^ Zdigits2 m.
Proof.
  intro H. destruct (Z.eq_dec m 0) as [->|Hm]; [simpl; lia|].
  pose proof (Zdigits2_bounds m). lia.
Qed.

Lemma Zdigits2_le (m k : Z) : 0 <= m -> 0 <= k -> m < 2 ^ k -> Zdigits2 m <= k.
Proof.
  intros Hm Hk Hlt. destruct (Z.eq_dec m 0) as [->|Hm0]; [simpl; lia|].
  pose proof (Zdigits2_bounds m ltac:(lia)) as [Hlo _].
  assert (2 ^ (Zdigits2 m - 1) < 2 ^ k) as H by lia.
  apply Z.pow_lt_mono_r_iff in H; lia.
Qed.

Lemma Zdigits2_ge (m k : Z) : 2 ^ (k - 1) <= m -> 0 < m -> k <= Zdigits2 m.
Proof.
  intros Hge Hm.
  pose proof (Zdigits2_bounds m Hm) as [_ Hhi].
  pose proof (Zdigits2_nonneg m).
  destruct (Z_lt_le_dec (k - 1) 0) as [Hk|Hk]; [lia|].
  assert (2 ^ (k - 1) < 2 ^ Zdigits2 m) as H' by lia.
  apply Z.pow_lt_mono_r_iff in H'; lia.
Qed.
End Digits.

Section Shift.
Local Open Scope Z_scope.

Lemma shr_1_m (r : shr_record) :
  0 <= shr_m r -> shr_m (shr_1 r) = shr_m r / 2.
Proof.
  destruct r as [m r s]. simpl. intro Hm.
  destruct m as [|[m|m|]|m]; simpl; try lia.
  - reflexivity.
  - change (Zpos m~1) with (2 * Zpos m + 1).
    apply Z.div_unique with 1; lia.
  - change (Zpos m~0) with (2 * Zpos m).
    apply Z.div_unique with 0; lia.
  - reflexivity.
Qed.

Lemma iter_shr_1_m (n : positive) :
  forall r, 0 <= shr_m r -> shr_m (iter_pos shr_1 n r) = shr_m r / 2 ^ Zpos n.
Proof.
  assert (Hstep : forall r, 0 <= shr_m r -> 0 <= shr_m (shr_1 r)).
  { intros r H. rewrite shr_1_m by exact H. apply Z.div_pos; lia. }
  assert (Hpow : forall k, 0 < 2 ^ Zpos k) by (intro k; apply Z.pow_pos_nonneg; lia).
  induction n as [n IH|n IH|]; intros r Hr; simpl iter_pos.
  - assert (H1 : 0 <= shr_m (shr_1 r)) by auto.
    assert (H2 : 0 <= shr_m (iter_pos shr_1 n (shr_1 r))).
    { rewrite IH by exact H1. apply Z.div_pos; [exact H1|apply Hpow]. }
    rewrite IH by exact H2. rewrite IH by exact H1. rewrite shr_1_m by exact Hr.
    pose proof (Hpow n) as Hn.
    rewrite !Z.div_div by lia. f_equal.
    change 2 with (2 ^ 1) at 1. rewrite <- !Z.pow_add_r by lia. f_equal. lia.
  - assert (H2 : 0 <= shr_m (iter_pos shr_1 n r)).
    { rewrite IH by exact Hr. apply Z.div_pos; [exact Hr|apply Hpow]. }
    rewrite IH by exact H2. rewrite IH by exact Hr.
    pose proof (Hpow n) as Hn.
    rewrite !Z.div_div by lia. f_equal.
    rewrite <- !Z.pow_add_r by lia. f_equal. lia.
  - rewrite shr_1_m by exact Hr. reflexivity.
Qed.

(** [shr] divides the mantissa by [2^n] and adds [n] to the exponent, for
    [n > 0]; it does nothing otherwise. *)
Lemma shr_m_e (r : shr_record) (e n : Z) :
  0 <= shr_m r ->
  shr_m (fst (shr r e n)) = shr_m r / 2 ^ Z.max 0 n /\
  snd (shr r e n) = e + Z.max 0 n.
Proof.
  intro Hr. destruct n as [|n|n]; simpl.
  - rewrite Z.div_1_r. split; lia.
  - rewrite iter_shr_1_m by exact Hr. split; reflexivity.
  - rewrite Z.div_1_r. split; lia.
Qed.

Lemma shr_record_of_loc_m (m : Z) (l : location) :
  shr_m (shr_record_of_loc m l) = m.
Proof. destruct l as [|[| |]]; reflexivity. Qed.

Lemma round_nearest_even_bounds (m : Z) (l : location) :
  m <= round_nearest_even m l <= m + 1.
Proof.
  destruct l as [|[| |]]; simpl; try lia. destruct (Z.even m); lia.
Qed.
End Shift.

Section RealValue.

Lemma bpow_pos (e : Z) : (0 < bpow e)%R.
Proof. apply powerRZ_lt. lra. Qed.

Lemma bpow_add (a b : Z) : bpow (a + b) = (bpow a * bpow b)%R.
Proof. apply powerRZ_add. lra. Qed.

Lemma IZR_pow2 (k : Z) : (0 <= k)%Z -> IZR (2 ^ k) = bpow k.
Proof.
  intro Hk. destruct k as [|k|k]; [reflexivity| |lia].
  apply (Zpower_pos_powerRZ 2 k).
Qed.

Lemma bpow_ge_1 (k : Z) : (0 <= k)%Z -> (1 <= bpow k)%R.
Proof.
  intro Hk. rewrite <- IZR_pow2 by exact Hk. apply IZR_le.
  pose proof (Z.pow_pos_nonneg 2 k). lia.
Qed.

Lemma bpow_le (a b : Z) : (a <= b)%Z -> (bpow a <= bpow b)%R.
Proof.
  intro H. replace b with (a + (b - a))%Z by lia. rewrite bpow_add.
  pose proof (bpow_pos a). pose proof (bpow_ge_1 (b - a) ltac:(lia)). nra.
Qed.

Lemma bpow_lt_inv (a b : Z) : (bpow a < bpow b)%R -> (a < b)%Z.
Proof.
  intro H. destruct (Z_lt_le_dec a b) as [Hlt|Hge]; [exact Hlt|].
  pose proof (bpow_le b a Hge). lra.
Qed.

Lemma bpow_0 : bpow 0 = 1%R.
Proof. reflexivity. Qed.

Lemma bpow_1 : bpow 1 = 2%R.
Proof. unfold bpow. simpl. lra. Qed.

Lemma bpow_m1 : bpow (-1) = (/ 2)%R.
Proof. unfold bpow. simpl. f_equal. lra. Qed.

Lemma bpow_plus_1 (a : Z) : bpow (a + 1) = (2 * bpow a)%R.
Proof. rewrite bpow_add, bpow_1. lra. Qed.

Lemma sqrt_bpow (k : Z) : sqrt (bpow (2 * k)) = bpow k.
Proof.
  replace (2 * k)%Z with (k + k)%Z by lia. rewrite bpow_add.
  apply sqrt_square. left. apply bpow_pos.
Qed.

Lemma F2R_scale (m e k : Z) :
  (0 <= k)%Z -> F2R (m * 2 ^ k) e = F2R m (e + k).
Proof.
  intro Hk. unfold F2R. rewrite mult_IZR, IZR_pow2, bpow_add by exact Hk. ring.
Qed.

Lemma F2R_le (m n e : Z) : (m <= n)%Z -> (F2R m e <= F2R n e)%R.
Proof.
  intro H. unfold F2R. apply IZR_le in H. pose proof (bpow_pos e). nra.
Qed.

Lemma F2R_lt (m n e : Z) : (m < n)%Z -> (F2R m e < F2R n e)%R.
Proof.
  intro H. unfold F2R. apply IZR_lt in H. pose proof (bpow_pos e). nra.
Qed.

(** Truncating a mantissa by [k] bits keeps the value between the truncated
    mantissa and its successor. *)
Lemma F2R_truncate (m e k : Z) :
  (0 <= m)%Z -> (0 <= k)%Z ->
  (F2R (m / 2 ^ k) (e + k) <= F2R m e)%R /\
  (F2R (m + 1) e <= F2R (m / 2 ^ k + 1) (e + k))%R.
Proof.
  intros Hm Hk. rewrite <- !F2R_scale by exact Hk.
  assert (0 < 2 ^ k)%Z as Hp by (apply Z.pow_pos_nonneg; lia).
  pose proof (Z.div_mod m (2 ^ k) ltac:(lia)) as Hdm.
  pose proof (Z.mod_pos_bound m (2 ^ k) Hp) as Hmod.
  split; apply F2R_le; nia.
Qed.

Lemma F2R_digits_lower (m e : Z) :
  (0 < m)%Z -> (bpow (Zdigits2 m + e - 1) <= F2R m e)%R.
Proof.
  intro Hm. pose proof (Zdigits2_bounds m Hm) as [Hlo _].
  pose proof (Zdigits2_nonneg m) as Hd.
  assert (1 <= Zdigits2 m)%Z as Hd1.
  { destruct m; simpl in *; lia. }
  replace (Zdigits2 m + e - 1)%Z with ((Zdigits2 m - 1) + e)%Z by lia.
  rewrite bpow_add, <- IZR_pow2 by lia. unfold F2R.
  apply IZR_le in Hlo. pose proof (bpow_pos e). nra.
Qed.

Lemma F2R_digits_upper (m e : Z) :
  (0 <= m)%Z -> (F2R (m + 1) e <= bpow (Zdigits2 m + e))%R.
Proof.
  intro Hm. pose proof (Zdigits2_succ_le m Hm) as Hhi.
  pose proof (Zdigits2_nonneg m) as Hd.
  rewrite bpow_add, <- IZR_pow2 by lia. unfold F2R.
  apply IZR_le in Hhi. pose proof (bpow_pos e). nra.
Qed.

(** The magnitude of a bracketed value, from bounds on the value. *)
Lemma magnitude_bounds (m e a b : Z) (x : R) :
  (0 < m)%Z -> (F2R m e <= x < F2R (m + 1) e)%R ->
  (bpow a <= x)%R -> (x < bpow b)%R ->
  (a + 1 <= Zdigits2 m + e <= b)%Z.
Proof.
  intros Hm [Hlo Hhi] Ha Hb.
  pose proof (F2R_digits_lower m e Hm).
  pose proof (F2R_digits_upper m e ltac:(lia)).
  assert (bpow a < bpow (Zdigits2 m + e))%R as H1 by lra.
  assert (bpow (Zdigits2 m + e - 1) < bpow b)%R as H2 by lra.
  apply bpow_lt_inv in H1, H2. lia.
Qed.
End RealValue.

Section RealValueMore.

Lemma F2R_lt_inv (m n e : Z) : (F2R m e < F2R n e)%R -> (m < n)%Z.
Proof.
  intro H. destruct (Z_lt_le_dec m n) as [Hlt|Hge]; [exact Hlt|].
  pose proof (F2R_le n m e Hge). lra.
Qed.

Lemma F2R_succ (m e : Z) : F2R (m + 1) e = (F2R m e + bpow e)%R.
Proof. unfold F2R. rewrite plus_IZR. ring. Qed.

Lemma F2R_pow2 (k e : Z) : (0 <= k)%Z -> F2R (2 ^ k) e = bpow (k + e).
Proof. intro Hk. unfold F2R. rewrite IZR_pow2, bpow_add by exact Hk. reflexivity. Qed.

Lemma bpow_opp_r (x : R) (e : Z) : (x * bpow (- e) * bpow e = x)%R.
Proof.
  rewrite Rmult_assoc, <- bpow_add. replace (- e + e)%Z with 0%Z by lia.
  rewrite bpow_0. ring.
Qed.

Lemma F2R_opp_r (m e : Z) : (F2R m e * bpow (- e) = IZR m)%R.
Proof.
  unfold F2R. rewrite Rmult_assoc, <- bpow_add.
  replace (e + - e)%Z with 0%Z by lia. rewrite bpow_0. ring.
Qed.
End RealValueMore.

(** ** Rounding locations *)
Section Location.

Lemma loc_ok_bracket (m : Z) (l : location) (t : R) :
  loc_ok m l t -> (IZR m <= t < IZR m + 1)%R.
Proof. destruct l as [|[| |]]; cbn [loc_ok]; lra. Qed.

Lemma shr_1_eq (m : Z) (rb sb : bool) :
  (0 <= m)%Z ->
  shr_1 (Build_shr_record m rb sb) = Build_shr_record (m / 2) (Z.odd m) (rb || sb).
Proof.
  intro Hm. pose proof (shr_1_m (Build_shr_record m rb sb) Hm) as H.
  simpl shr_m in H. rewrite <- H.
  destruct m as [|[p|p|]|p]; try lia; reflexivity.
Qed.

Lemma shr_1_loc (r : shr_record) (t : R) :
  (0 <= shr_m r)%Z ->
  loc_ok (shr_m r) (loc_of_shr_record r) t ->
  loc_ok (shr_m (shr_1 r)) (loc_of_shr_record (shr_1 r)) (t / 2).
Proof.
  destruct r as [m rb sb]. intros Hm H. cbn [shr_m] in Hm.
  rewrite shr_1_eq by exact Hm. cbn [shr_m loc_of_shr_record] in *.
  pose proof (Zdiv2_odd_eqn m) as Hdm. rewrite Z.div2_div in Hdm.
  apply (f_equal IZR) in Hdm. rewrite plus_IZR, mult_IZR in Hdm.
  destruct (Z.odd m), rb, sb; cbn [orb loc_ok] in *; lra.
Qed.

Lemma iter_shr_1_loc (n : positive) :
  forall r t, (0 <= shr_m r)%Z ->
    loc_ok (shr_m r) (loc_of_shr_record r) t ->
    loc_ok (shr_m (iter_pos shr_1 n r)) (loc_of_shr_record (iter_pos shr_1 n r))
      (t * bpow (- Zpos n)).
Proof.
  assert (Hstep : forall r, (0 <= shr_m r)%Z -> (0 <= shr_m (shr_1 r))%Z).
  { intros r H. rewrite shr_1_m by exact H. apply Z.div_pos; lia. }
  assert (Hiter : forall k r, (0 <= shr_m r)%Z -> (0 <= shr_m (iter_pos shr_1 k r))%Z).
  { intros k r H. rewrite iter_shr_1_m by exact H.
    apply Z.div_pos; [exact H|apply Z.pow_pos_nonneg; lia]. }
  assert (Hhalf : forall t, (t / 2 = t * bpow (-1))%R).
  { intro t. rewrite bpow_m1. reflexivity. }
  induction n as [n IH|n IH|]; intros r t Hr H; simpl iter_pos.
  - replace (t * bpow (- Zpos n~1))%R
      with (t / 2 * bpow (- Zpos n) * bpow (- Zpos n))%R.
    + apply IH; [apply Hiter, Hstep, Hr|]. apply IH; [apply Hstep, Hr|].
      apply shr_1_loc; assumption.
    + rewrite Hhalf, !Rmult_assoc, <- !bpow_add. do 2 f_equal. lia.
  - replace (t * bpow (- Zpos n~0))%R
      with (t * bpow (- Zpos n) * bpow (- Zpos n))%R.
    + apply IH; [apply Hiter, Hr|]. apply IH; assumption.
    + rewrite !Rmult_assoc, <- !bpow_add. do 2 f_equal. lia.
  - rewrite <- Hhalf. apply shr_1_loc; assumption.
Qed.

Lemma loc_of_shr_record_of_loc (m : Z) (l : location) :
  loc_of_shr_record (shr_record_of_loc m l) = l.
Proof. destruct l as [|[| |]]; reflexivity. Qed.

(** [shr] keeps the location of the value it rescales. *)
Lemma shr_loc (r : shr_record) (e n : Z) (x : R) :
  (0 <= shr_m r)%Z ->
  loc_ok (shr_m r) (loc_of_shr_record r) (x * bpow (- e)) ->
  loc_ok (shr_m (fst (shr r e n))) (loc_of_shr_record (fst (shr r e n)))
    (x * bpow (- snd (shr r e n))).
Proof.
  intros Hr H. destruct n as [|n|n]; simpl; try exact H.
  replace (x * bpow (- (e + Zpos n)))%R with (x * bpow (- e) * bpow (- Zpos n))%R.
  - apply iter_shr_1_loc; assumption.
  - rewrite Rmult_assoc, <- bpow_add. do 2 f_equal. lia.
Qed.

(** Rounding to nearest picks, of the two integers around [t], one that is
    at least as close as the other. *)
Lemma round_nearest_even_nearest (m : Z) (l : location) (t : R) :
  loc_ok m l t ->
  (Rabs (IZR (round_nearest_even m l) - t) <= t - IZR m)%R /\
  (Rabs (IZR (round_nearest_even m l) - t) <= IZR m + 1 - t)%R.
Proof.
  destruct l as [|[| |]]; cbn [loc_ok round_nearest_even]; intro H.
  - subst t. rewrite Rminus_diag, Rabs_R0. split; lra.
  - match goal with |- context [if ?b then _ else _] => destruct b end;
      rewrite ?plus_IZR; split; apply Rabs_le; lra.
  - split; apply Rabs_le; lra.
  - rewrite plus_IZR. split; apply Rabs_le; lra.
Qed.
End Location.

Section RoundAux.
Local Open Scope Z_scope.
Variables prec emax : Z.
Hypothesis Hprec : 1 <= prec.

Lemma fexp_ge_emin (k : Z) : emin prec emax <= fexp prec emax k.
Proof. unfold fexp. lia. Qed.

Lemma fexp_mono (a b : Z) : a <= b -> fexp prec emax a <= fexp prec emax b.
Proof. unfold fexp. lia. Qed.

Lemma Zdigits2_pow2 (k : Z) : 0 <= k -> Zdigits2 (2 ^ k) = k + 1.
Proof.
  intro Hk. assert (0 < 2 ^ k) as Hpos by (apply Z.pow_pos_nonneg; lia).
  apply Z.le_antisymm.
  - apply Zdigits2_le; try lia. rewrite Z.pow_add_r by lia. lia.
  - apply Zdigits2_ge; [|exact Hpos]. replace (k + 1 - 1) with k by lia. lia.
Qed.

Lemma shr_fexp_m_e (m e : Z) (l : location) :
  0 <= m ->
  shr_m (fst (shr_fexp prec emax m e l)) =
    m / 2 ^ Z.max 0 (fexp prec emax (Zdigits2 m + e) - e) /\
  snd (shr_fexp prec emax m e l) =
    e + Z.max 0 (fexp prec emax (Zdigits2 m + e) - e).
Proof.
  intro Hm. unfold shr_fexp.
  pose proof (shr_m_e (shr_record_of_loc m l) e
                (fexp prec emax (Zdigits2 m + e) - e)) as H.
  rewrite shr_record_of_loc_m in H. exact (H Hm).
Qed.

Lemma binary_round_aux_eq (sgn : bool) (m e : Z) (l : location) :
  binary_round_aux prec emax sgn m e l =
  match
    shr_m (fst (shr_fexp prec emax
                  (round_nearest_even (shr_m (fst (shr_fexp prec emax m e l)))
                     (loc_of_shr_record (fst (shr_fexp prec emax m e l))))
                  (snd (shr_fexp prec emax m e l)) loc_Exact))
  with
  | Z0 => S754_zero sgn
  | Zpos m'' =>
      if snd (shr_fexp prec emax
                (round_nearest_even (shr_m (fst (shr_fexp prec emax m e l)))
                   (loc_of_shr_record (fst (shr_fexp prec emax m e l))))
                (snd (shr_fexp prec emax m e l)) loc_Exact) <=? emax - prec
      then S754_finite sgn m''
             (snd (shr_fexp prec emax
                     (round_nearest_even (shr_m (fst (shr_fexp prec emax m e l)))
                        (loc_of_shr_record (fst (shr_fexp prec emax m e l))))
                     (snd (shr_fexp prec emax m e l)) loc_Exact))
      else S754_infinity sgn
  | Zneg _ => S754_nan
  end.
Proof.
  unfold binary_round_aux.
  destruct (shr_fexp prec emax m e l) as [r1 e1]. cbn [fst snd].
  destruct (shr_fexp prec emax _ e1 loc_Exact) as [r2 e2]. reflexivity.
Qed.

(** The shape of a rounding: with [E] the exponent that the format gives to
    the magnitude of the input and [m1] the input mantissa truncated to that
    exponent, the result is the float [mr * 2^E] for [mr] the rounded
    mantissa, one of [m1] and [m1 + 1] (written canonically), or an infinity
    when that float is out of range. *)
Lemma binary_round_aux_shape (sgn : bool) (m e : Z) (l : location) :
  0 <= m -> e <= fexp prec emax (Zdigits2 m + e) ->
  shr_m (fst (shr_fexp prec emax m e l))
    = m / 2 ^ (fexp prec emax (Zdigits2 m + e) - e) /\
  snd (shr_fexp prec emax m e l) = fexp prec emax (Zdigits2 m + e) /\
  m / 2 ^ (fexp prec emax (Zdigits2 m + e) - e) < 2 ^ prec /\
  m / 2 ^ (fexp prec emax (Zdigits2 m + e) - e) <= rounded_mantissa prec emax m e l
    <= m / 2 ^ (fexp prec emax (Zdigits2 m + e) - e) + 1 /\
  match binary_round_aux prec emax sgn m e l with
  | S754_zero s' => s' = sgn /\ rounded_mantissa prec emax m e l = 0
  | S754_finite s' m'' e'' =>
      s' = sgn /\
      Zpos m'' * 2 ^ (e'' - fexp prec emax (Zdigits2 m + e))
        = rounded_mantissa prec emax m e l /\
      fexp prec emax (Zdigits2 m + e) <= e'' /\
      e'' <= emax - prec /\
      canonical_mantissa prec emax m'' e'' = true
  | S754_infinity s' =>
      s' = sgn /\
      (emax - prec < fexp prec emax (Zdigits2 m + e) \/
       (fexp prec emax (Zdigits2 m + e) = emax - prec /\
        rounded_mantissa prec emax m e l = 2 ^ prec))
  | S754_nan => False
  end.
Proof.
  intros Hm He.
  set (E := fexp prec emax (Zdigits2 m + e)) in *.
  assert (HEmin : emin prec emax <= E) by apply fexp_ge_emin.
  rewrite binary_round_aux_eq.
  (* first shift *)
  destruct (shr_fexp_m_e m e l Hm) as [Hm1 He1]. fold E in Hm1, He1.
  rewrite Z.max_r in Hm1, He1 by lia.
  replace (e + (E - e)) with E in He1 by lia.
  split; [exact Hm1|]. split; [exact He1|]. rewrite He1. clear He1.
  unfold rounded_mantissa.
  set (r1 := fst (shr_fexp prec emax m e l)) in *.
  set (m1 := m / 2 ^ (E - e)) in *.
  assert (Hpow : 0 < 2 ^ (E - e)) by (apply Z.pow_pos_nonneg; lia).
  assert (Hm1pos : 0 <= m1) by (apply Z.div_pos; lia).
  assert (Hm1lt : m1 < 2 ^ prec).
  { apply Z.div_lt_upper_bound; [exact Hpow|].
    rewrite <- Z.pow_add_r by lia.
    pose proof (Zdigits2_succ_le m Hm) as Hd.
    pose proof (Zdigits2_nonneg m) as Hd0.
    assert (2 ^ Zdigits2 m <= 2 ^ (E - e + prec)) as Hle.
    { apply Z.pow_le_mono_r; [lia|]. unfold E, fexp. lia. }
    lia. }
  set (mr := round_nearest_even (shr_m r1) (loc_of_shr_record r1)).
  assert (Hmr : m1 <= mr <= m1 + 1).
  { unfold mr. rewrite Hm1. apply round_nearest_even_bounds. }
  split; [exact Hm1lt|]. split; [exact Hmr|].
  assert (Hmr0 : 0 <= mr) by lia.
  (* second shift *)
  destruct (shr_fexp_m_e mr E loc_Exact Hmr0) as [Hm2 He2].
  rewrite He2. clear He2.
  set (r2 := fst (shr_fexp prec emax mr E loc_Exact)) in *.
  assert (Hp2 : 0 < 2 ^ prec) by (apply Z.pow_pos_nonneg; lia).
  destruct (Z_lt_le_dec mr (2 ^ prec)) as [Hlt|Hge].
  - (* no carry *)
    assert (Hdmr : Zdigits2 mr <= prec) by (apply Zdigits2_le; lia).
    assert (Hfe : fexp prec emax (Zdigits2 mr + E) <= E) by (unfold fexp; lia).
    rewrite Z.max_l in Hm2 |- * by lia.
    rewrite Z.div_1_r in Hm2. replace (E + 0) with E by lia.
    rewrite Hm2.
    destruct mr as [|pm|pm] eqn:Hpm; [split; reflexivity| |lia].
    assert (Hcanon : fexp prec emax (Zpos (digits2_pos pm) + E) = E).
    { change (Zpos (digits2_pos pm)) with (Zdigits2 (Zpos pm)).
      apply Z.le_antisymm; [exact Hfe|].
      destruct (Z_le_gt_dec (Zdigits2 m + e - prec) (emin prec emax)) as [Hsub|Hnorm].
      - assert (E = emin prec emax) as -> by (unfold E, fexp; lia).
        apply fexp_ge_emin.
      - assert (HE : E = Zdigits2 m + e - prec) by (unfold E, fexp; lia).
        assert (Hmpos : 0 < m).
        { destruct (Z.eq_dec m 0) as [->|]; [|lia].
          change (Zdigits2 0) with 0 in HE. lia. }
        pose proof (Zdigits2_bounds m Hmpos) as [Hlo _].
        assert (2 ^ (prec - 1) <= m1) as Hm1ge.
        { apply Z.div_le_lower_bound; [exact Hpow|].
          rewrite <- Z.pow_add_r by lia.
          replace (E - e + (prec - 1)) with (Zdigits2 m - 1) by lia. exact Hlo. }
        assert (prec <= Zdigits2 (Zpos pm)) as Hd.
        { apply Zdigits2_ge; lia. }
        unfold fexp. lia. }
    destruct (Z.leb_spec E (emax - prec)) as [Hfin|Hinf].
    + split; [reflexivity|]. rewrite Z.sub_diag, Z.pow_0_r, Z.mul_1_r.
      repeat split; try lia.
      unfold canonical_mantissa. rewrite Hcanon. apply Z.eqb_refl.
    + split; [reflexivity|]. left. lia.
  - (* the rounding carried into the next binade *)
    assert (Hmr2 : mr = 2 ^ prec) by lia.
    assert (Hdmr : Zdigits2 mr = prec + 1) by (rewrite Hmr2; apply Zdigits2_pow2; lia).
    assert (Hfe : fexp prec emax (Zdigits2 mr + E) = E + 1) by (unfold fexp; lia).
    rewrite Hfe in Hm2 |- *. replace (E + 1 - E) with 1 in Hm2 |- * by lia.
    rewrite Z.max_r in Hm2 |- * by lia.
    assert (Hhalf : shr_m r2 = 2 ^ (prec - 1)).
    { rewrite Hm2, Hmr2. replace prec with (prec - 1 + 1) at 1 by lia.
      rewrite Z.pow_add_r by lia. apply Z.div_mul. lia. }
    assert (Hp1 : 0 < 2 ^ (prec - 1)) by (apply Z.pow_pos_nonneg; lia).
    assert (Hdouble : 2 ^ prec = 2 ^ (prec - 1) * 2).
    { replace prec with (prec - 1 + 1) at 1 by lia. now rewrite Z.pow_add_r by lia. }
    rewrite Hhalf.
    destruct (2 ^ (prec - 1)) as [|pm|pm] eqn:Hpm; [lia| |lia].
    destruct (Z.leb_spec (E + 1) (emax - prec)) as [Hfin|Hinf].
    + split; [reflexivity|]. replace (E + 1 - E) with 1 by lia.
      rewrite Z.pow_1_r. repeat split; try lia.
      unfold canonical_mantissa.
      change (Zpos (digits2_pos pm)) with (Zdigits2 (Zpos pm)).
      rewrite <- Hpm, Zdigits2_pow2 by lia.
      apply Z.eqb_eq. unfold fexp. lia.
    + split; [reflexivity|].
      destruct (Z.eq_dec E (emax - prec)) as [HEq|HNe]; [right|left]; lia.
Qed.
End RoundAux.

Section Nearest.
Variables prec emax : Z.
Hypothesis Hprec : (2 <= prec)%Z.
Hypothesis Hemax : (prec < emax)%Z.

Lemma prec_ge_1 : (1 <= prec)%Z.
Proof. lia. Qed.

Lemma max_value_lt : (max_value prec emax < bpow emax)%R.
Proof.
  unfold max_value.
  replace (bpow emax) with (F2R (2 ^ prec) (emax - prec)).
  - apply F2R_lt. lia.
  - rewrite F2R_pow2 by lia. f_equal. lia.
Qed.

Lemma Rabs_le_inv (a b : R) : (Rabs a <= b)%R -> (- b <= a <= b)%R.
Proof. unfold Rabs. destruct (Rcase_abs a); lra. Qed.

(** [binary_round_aux] rounds to nearest. *)
Lemma binary_round_aux_rounds_to (m e : Z) (l : location) (x : R) :
  (0 < m)%Z -> (e <= fexp prec emax (Zdigits2 m + e))%Z ->
  loc_ok m l (x * bpow (- e)) ->
  (x <= max_value prec emax)%R ->
  rounds_to prec emax x (binary_round_aux prec emax false m e l).
Proof.
  intros Hm He Hloc Hmax.
  destruct (binary_round_aux_shape prec emax prec_ge_1 false m e l
              ltac:(lia) He) as (Hm1 & He1 & Hm1lt & Hmr & Hshape).
  set (E := fexp prec emax (Zdigits2 m + e)) in *.
  set (m1 := (m / 2 ^ (E - e))%Z) in *.
  set (mr := rounded_mantissa prec emax m e l) in *.
  assert (Hpow : (0 < 2 ^ (E - e))%Z) by (apply Z.pow_pos_nonneg; lia).
  assert (Hm1pos : (0 <= m1)%Z) by (apply Z.div_pos; lia).
  pose proof (bpow_pos E) as HbE. pose proof (bpow_pos e) as Hbe.
  (* the input bracket and the magnitude *)
  pose proof (loc_ok_bracket _ _ _ Hloc) as Hbr0.
  assert (Hx0 : (F2R m e <= x < F2R (m + 1) e)%R).
  { assert (Hxe : (x = x * bpow (- e) * bpow e)%R) by (now rewrite bpow_opp_r).
    unfold F2R. rewrite plus_IZR, Hxe.
    split; [apply Rmult_le_compat_r|apply Rmult_lt_compat_r]; lra. }
  pose proof (F2R_digits_lower m e Hm) as Hlo.
  pose proof (F2R_digits_upper m e ltac:(lia)) as Hhi.
  (* the location after the shift *)
  set (t := (x * bpow (- E))%R).
  assert (Hloc1 : loc_ok m1 (loc_of_shr_record (fst (shr_fexp prec emax m e l))) t).
  { pose proof (shr_loc (shr_record_of_loc m l) e (E - e) x) as H.
    rewrite shr_record_of_loc_m, loc_of_shr_record_of_loc in H.
    specialize (H ltac:(lia) Hloc).
    change (shr (shr_record_of_loc m l) e (E - e)) with (shr_fexp prec emax m e l) in H.
    rewrite Hm1, He1 in H. exact H. }
  pose proof (loc_ok_bracket _ _ _ Hloc1) as Hbr1.
  pose proof (round_nearest_even_nearest _ _ _ Hloc1) as Hne.
  rewrite <- Hm1 in Hne at 1 3. fold (rounded_mantissa prec emax m e l) in Hne.
  fold mr in Hne. destruct Hne as [Hne1 Hne2].
  assert (Hxt : (x = t * bpow E)%R) by (unfold t; now rewrite bpow_opp_r).
  assert (Hbr : (F2R m1 E <= x < F2R (m1 + 1) E)%R).
  { unfold F2R. rewrite plus_IZR, Hxt.
    split; [apply Rmult_le_compat_r|apply Rmult_lt_compat_r]; lra. }
  assert (Hdist : (F2R mr E - x = (IZR mr - t) * bpow E)%R).
  { unfold F2R. rewrite Hxt. ring. }
  assert (Hn1 : (Rabs (F2R mr E - x) <= x - F2R m1 E)%R).
  { rewrite Hdist, Rabs_mult, (Rabs_pos_eq (bpow E)) by lra.
    replace (x - F2R m1 E)%R with ((t - IZR m1) * bpow E)%R
      by (unfold F2R; rewrite Hxt; ring).
    apply Rmult_le_compat_r; lra. }
  assert (Hn2 : (Rabs (F2R mr E - x) <= F2R (m1 + 1) E - x)%R).
  { rewrite Hdist, Rabs_mult, (Rabs_pos_eq (bpow E)) by lra.
    replace (F2R (m1 + 1) E - x)%R with ((IZR m1 + 1 - t) * bpow E)%R
      by (unfold F2R; rewrite plus_IZR, Hxt; ring).
    apply Rmult_le_compat_r; lra. }
  assert (Hwhich : F2R mr E = F2R m1 E \/ F2R mr E = F2R (m1 + 1) E).
  { assert (mr = m1 \/ mr = (m1 + 1)%Z) as [-> | ->] by lia; auto. }
  exists (Zdigits2 m + e)%Z, m1. fold E.
  split; [lra|]. split; [exact Hm1pos|]. split; [exact Hbr|].
  destruct (binary_round_aux prec emax false m e l) as [s|s| |s m'' e''].
  - destruct Hshape as [-> Hmr0].
    assert (B2R (S754_zero false) = F2R mr E) as HB.
    { rewrite Hmr0. unfold F2R. simpl. ring. }
    rewrite HB. auto.
  - exfalso. destruct Hshape as (_ & [Hbig | [HEq Hcarry]]).
    + assert (emax < Zdigits2 m + e)%Z as Hmag by (unfold E, fexp, emin in Hbig; lia).
      pose proof max_value_lt as HM.
      assert (bpow emax <= bpow (Zdigits2 m + e - 1))%R by (apply bpow_le; lia).
      lra.
    + assert (m1 = (2 ^ prec - 1)%Z) as Hm1top by lia.
      assert (x = F2R m1 E) as Hxeq.
      { unfold max_value in Hmax. rewrite <- HEq, <- Hm1top in Hmax. lra. }
      assert (F2R mr E = F2R (m1 + 1) E) as Hup.
      { f_equal. lia. }
      rewrite Hup, F2R_succ, Hxeq in Hn1.
      apply Rabs_le_inv in Hn1. lra.
  - contradiction.
  - destruct Hshape as (-> & Hm'' & HE & Hfin & Hcanon).
    assert (B2R (S754_finite false m'' e'') = F2R mr E) as HB.
    { simpl. replace e'' with (E + (e'' - E))%Z by lia.
      rewrite <- F2R_scale by lia. now rewrite Hm''. }
    rewrite HB. auto 10.
Qed.

(** A nearest rounding is within half a unit in the last place. *)
Lemma rounds_to_half_ulp (x : R) (y : spec_float) :
  rounds_to prec emax x y ->
  exists mag : Z,
    (bpow (mag - 1) <= x < bpow mag)%R /\
    (Rabs (B2R y - x) <= bpow (fexp prec emax mag) / 2)%R.
Proof.
  intros (mag & m1 & Hmag & _ & _ & _ & H1 & H2 & _).
  exists mag. split; [exact Hmag|]. rewrite F2R_succ in H2. lra.
Qed.

(** In the normal range the error is relative. *)
Lemma rounds_to_relative (x : R) (y : spec_float) :
  rounds_to prec emax x y ->
  (bpow (emin prec emax + prec - 1) <= x)%R ->
  (Rabs (B2R y - x) <= bpow (- prec) * x)%R.
Proof.
  intros H Hnorm. destruct (rounds_to_half_ulp x y H) as (mag & [Hlo Hhi] & Herr).
  assert (emin prec emax + prec - 1 < mag)%Z as Hmag by (apply bpow_lt_inv; lra).
  assert (fexp prec emax mag = ((mag - 1) + (- prec) + 1)%Z) as HE
    by (unfold fexp; lia).
  rewrite HE, bpow_plus_1, bpow_add in Herr.
  pose proof (bpow_pos (- prec)). pose proof (bpow_pos (mag - 1)).
  assert (bpow (mag - 1) * bpow (- prec) <= x * bpow (- prec))%R
    by (apply Rmult_le_compat_r; lra).
  lra.
Qed.

(** A rounding that cannot reach zero is a positive finite float. *)
Lemma rounds_to_positive (x : R) (y : spec_float) :
  rounds_to prec emax x y -> (0 < B2R y)%R ->
  exists m e, y = S754_finite false m e /\
              canonical_mantissa prec emax m e = true /\
              (e <= emax - prec)%Z.
Proof.
  intros (mag & m1 & _ & _ & _ & _ & _ & _ & Hshape) Hpos.
  destruct y as [s|s| |s m e]; simpl in Hpos; try lra; try contradiction.
  destruct Hshape as (-> & Hc & He). eauto.
Qed.

Lemma rounds_to_number (x : R) (y : spec_float) :
  rounds_to prec emax x y -> is_number y = true.
Proof.
  intros (mag & m1 & _ & _ & _ & _ & _ & _ & Hshape).
  destruct y; try contradiction; reflexivity.
Qed.

Lemma canonical_digits (m : positive) (e : Z) :
  canonical_mantissa prec emax m e = true ->
  (e = fexp prec emax (Zdigits2 (Zpos m) + e) /\
   (Zdigits2 (Zpos m) = prec \/ (e = emin prec emax /\ Zdigits2 (Zpos m) <= prec)))%Z.
Proof.
  unfold canonical_mantissa. intro H. apply Z.eqb_eq in H.
  change (Zpos (digits2_pos m)) with (Zdigits2 (Zpos m)) in H.
  split; [now symmetry|]. unfold fexp in H. lia.
Qed.

(** No float of the format lies strictly between the two neighbours of [x],
    so a nearest rounding is at least as close to [x] as any float. *)
Lemma rounds_to_nearest (x : R) (y : spec_float) (mg : positive) (eg : Z) :
  rounds_to prec emax x y ->
  canonical_mantissa prec emax mg eg = true ->
  (Rabs (B2R y - x) <= Rabs (F2R (Zpos mg) eg - x))%R.
Proof.
  intros (mag & m1 & [Hmlo Hmhi] & Hm1 & [Hlo Hhi] & _ & H1 & H2 & _) Hc.
  apply canonical_digits in Hc as [Heg _].
  set (E := fexp prec emax mag) in *.
  set (G := F2R (Zpos mg) eg).
  set (magg := (Zdigits2 (Zpos mg) + eg)%Z) in *.
  pose proof (F2R_digits_lower (Zpos mg) eg ltac:(lia)) as HGlo. fold magg G in HGlo.
  pose proof (F2R_digits_upper (Zpos mg) eg ltac:(lia)) as HGhi. fold magg in HGhi.
  assert (HGhi' : (G < bpow magg)%R).
  { eapply Rlt_le_trans; [|exact HGhi]. apply F2R_lt. lia. }
  assert (Hegmin : (emin prec emax <= eg)%Z) by (rewrite Heg; apply fexp_ge_emin).
  assert (Hmagg : (emin prec emax + 1 <= magg)%Z).
  { unfold magg. assert (1 <= Zdigits2 (Zpos mg))%Z by (simpl; lia). lia. }
  assert (Hcases : (G <= F2R m1 E \/ F2R (m1 + 1) E <= G)%R).
  { destruct (Z.lt_trichotomy magg mag) as [Hlt|[Heq|Hgt]].
    - (* below the binade of x *)
      left. apply Rle_trans with (bpow (mag - 1)).
      + left. eapply Rlt_le_trans; [exact HGhi'|]. apply bpow_le. lia.
      + assert (HEle : (E <= mag - 1)%Z) by (unfold E, fexp; lia).
        assert (Hp : bpow (mag - 1) = F2R (2 ^ (mag - 1 - E)) E).
        { rewrite F2R_pow2 by lia. f_equal. lia. }
        rewrite Hp in *. apply F2R_le.
        assert (F2R (2 ^ (mag - 1 - E)) E < F2R (m1 + 1) E)%R as Hlt' by lra.
        apply F2R_lt_inv in Hlt'. lia.
    - (* in the binade of x: same exponent *)
      assert (eg = E) as HeE by (unfold E; rewrite Heg; fold magg; now rewrite Heq).
      unfold G. rewrite HeE.
      destruct (Z_le_gt_dec (Zpos mg) m1) as [Hle|Hgt].
      + left. now apply F2R_le.
      + right. apply F2R_le. lia.
    - (* above the binade of x *)
      right. apply Rle_trans with (bpow (magg - 1)); [|exact HGlo].
      destruct (Z_le_gt_dec E mag) as [HEle|HEgt].
      + apply Rle_trans with (bpow mag); [|apply bpow_le; lia].
        assert (Hp : bpow mag = F2R (2 ^ (mag - E)) E).
        { rewrite F2R_pow2 by lia. f_equal. lia. }
        rewrite Hp in *. apply F2R_le.
        assert (F2R m1 E < F2R (2 ^ (mag - E)) E)%R as Hlt' by lra.
        apply F2R_lt_inv in Hlt'. lia.
      + assert (E = emin prec emax) as HEmin by (unfold E, fexp in *; lia).
        assert (m1 = 0)%Z as ->.
        { assert (F2R m1 E < F2R 1 E)%R as Hlt'.
          { unfold F2R at 2. rewrite Rmult_1_l.
            apply Rle_lt_trans with x; [exact Hlo|].
            eapply Rlt_le_trans; [exact Hmhi|]. apply bpow_le. lia. }
          apply F2R_lt_inv in Hlt'. lia. }
        simpl. unfold F2R. rewrite Rmult_1_l. apply bpow_le. lia. }
  apply Rabs_le_inv in H1, H2.
  destruct Hcases as [Hc|Hc].
  - rewrite (Rabs_left1 (G - x)) by lra. apply Rabs_le. lra.
  - rewrite (Rabs_pos_eq (G - x)) by lra. apply Rabs_le. lra.
Qed.
End Nearest.

Section Operations.
Variables prec emax : Z.
Hypothesis Hprec : (2 <= prec)%Z.
Hypothesis Hemax : (prec < emax)%Z.

Lemma Zdigits2_mul (a b : Z) :
  (0 < a)%Z -> (0 < b)%Z -> (Zdigits2 a + Zdigits2 b - 1 <= Zdigits2 (a * b))%Z.
Proof.
  intros Ha Hb.
  pose proof (Zdigits2_bounds a Ha) as [Hla _].
  pose proof (Zdigits2_bounds b Hb) as [Hlb _].
  assert (1 <= Zdigits2 a)%Z by (destruct a; simpl in *; lia).
  assert (1 <= Zdigits2 b)%Z by (destruct b; simpl in *; lia).
  apply Zdigits2_ge; [|nia].
  replace (Zdigits2 a + Zdigits2 b - 1 - 1)%Z
    with ((Zdigits2 a - 1) + (Zdigits2 b - 1))%Z by lia.
  rewrite Z.pow_add_r by lia.
  assert (0 < 2 ^ (Zdigits2 a - 1))%Z by (apply Z.pow_pos_nonneg; lia).
  assert (0 < 2 ^ (Zdigits2 b - 1))%Z by (apply Z.pow_pos_nonneg; lia).
  nia.
Qed.

(** Multiplication. *)
Lemma SFmul_rounds_to (mx my : positive) (ex ey : Z) :
  canonical_mantissa prec emax mx ex = true ->
  canonical_mantissa prec emax my ey = true ->
  (F2R (Zpos mx) ex * F2R (Zpos my) ey <= max_value prec emax)%R ->
  rounds_to prec emax (F2R (Zpos mx) ex * F2R (Zpos my) ey)
    (SFmul prec emax (S754_finite false mx ex) (S754_finite false my ey)).
Proof.
  intros Hcx Hcy Hov. simpl SFmul.
  assert (Heq : (F2R (Zpos mx) ex * F2R (Zpos my) ey)%R
                = F2R (Zpos (mx * my)) (ex + ey)).
  { unfold F2R. rewrite Pos2Z.inj_mul, mult_IZR, bpow_add. ring. }
  rewrite Heq in *.
  apply binary_round_aux_rounds_to; try lia; try assumption.
  - apply canonical_digits in Hcx as [_ Hcx]. apply canonical_digits in Hcy as [_ Hcy].
    pose proof (Zdigits2_mul (Zpos mx) (Zpos my) ltac:(lia) ltac:(lia)) as Hd.
    rewrite <- Pos2Z.inj_mul in Hd.
    assert (1 <= Zdigits2 (Zpos mx))%Z by (simpl; lia).
    assert (1 <= Zdigits2 (Zpos my))%Z by (simpl; lia).
    unfold fexp, emin in *. lia.
  - cbn [loc_ok]. apply F2R_opp_r.
Qed.

Lemma div2_bounds (a : Z) : (2 * Z.div2 a <= a <= 2 * Z.div2 a + 1)%Z.
Proof.
  rewrite Z.div2_div.
  pose proof (Z.div_mod a 2 ltac:(lia)). pose proof (Z.mod_pos_bound a 2 ltac:(lia)).
  lia.
Qed.

(** Square root: the integer square root of the shifted mantissa, with its
    location, stands for the real square root, and carries enough digits. *)
Lemma SFsqrt_core_located (m : positive) (e : Z) :
  let '(q, e', l) := SFsqrt_core_binary prec emax (Zpos m) e in
  (0 < q)%Z /\
  (e' <= fexp prec emax (Zdigits2 q + e'))%Z /\
  loc_ok q l (sqrt (F2R (Zpos m) e) * bpow (- e')).
Proof.
  unfold SFsqrt_core_binary.
  set (d := Zdigits2 (Zpos m)).
  set (e' := Z.min (fexp prec emax (Z.div2 (d + e + 1))) (Z.div2 e)).
  set (s := (e - 2 * e')%Z).
  pose proof (div2_bounds e) as He2.
  pose proof (div2_bounds (d + e + 1)) as Hd2.
  assert (Hs : (0 <= s)%Z) by (unfold s, e'; lia).
  set (m' := match s with
             | Zpos _ => Z.shiftl (Zpos m) s
             | Z0 => Zpos m
             | Zneg _ => Z0
             end).
  assert (Hm' : m' = (Zpos m * 2 ^ s)%Z).
  { unfold m'. destruct s as [|ps|ps] eqn:Hs'.
    - simpl. lia.
    - apply Z.shiftl_mul_pow2. lia.
    - lia. }
  assert (Hpow : (0 < 2 ^ s)%Z) by (apply Z.pow_pos_nonneg; lia).
  assert (Hm'pos : (0 < m')%Z) by (rewrite Hm'; nia).
  pose proof (Z.sqrtrem_spec m' ltac:(lia)) as Hspec.
  destruct (Z.sqrtrem m') as [q r].
  destruct Hspec as [Hqr Hr].
  assert (Hq : (0 < q)%Z) by nia.
  assert (Hval : F2R (Zpos m) e = (IZR m' * (bpow e' * bpow e'))%R).
  { replace e with ((e' + e') + s)%Z at 1 by (unfold s; lia).
    rewrite <- F2R_scale by exact Hs. rewrite <- Hm'.
    unfold F2R. rewrite bpow_add. reflexivity. }
  pose proof (bpow_pos e') as Hb.
  assert (Hsqrt : sqrt (F2R (Zpos m) e) = (sqrt (IZR m') * bpow e')%R).
  { rewrite Hval.
    rewrite sqrt_mult; [|apply IZR_le; lia|nra].
    rewrite sqrt_square by lra. reflexivity. }
  set (T := sqrt (IZR m')).
  assert (HT0 : (0 <= T)%R) by apply sqrt_pos.
  assert (HTT : (T * T = IZR q * IZR q + IZR r)%R).
  { unfold T. rewrite sqrt_def by (apply IZR_le; lia).
    rewrite Hqr, plus_IZR, mult_IZR. reflexivity. }
  assert (HQ : (1 <= IZR q)%R) by (apply IZR_le; lia).
  assert (HR0 : (0 <= IZR r)%R) by (apply IZR_le; lia).
  assert (HR2 : (IZR r <= 2 * IZR q)%R).
  { rewrite <- mult_IZR. apply IZR_le. lia. }
  assert (Hlo : (IZR q <= T)%R) by nra.
  assert (Hhi : (T < IZR q + 1)%R) by nra.
  assert (Hscaled : (sqrt (F2R (Zpos m) e) * bpow (- e') = T)%R).
  { rewrite Hsqrt. fold T. rewrite Rmult_assoc, <- bpow_add.
    replace (e' + - e')%Z with 0%Z by lia. rewrite bpow_0. ring. }
  split; [exact Hq|]. split.
  - (* enough digits: the magnitude of the root is at least the estimate *)
    set (est := Z.div2 (d + e + 1)) in *.
    assert (Hmag : (est <= Zdigits2 q + e')%Z).
    { pose proof (F2R_digits_lower (Zpos m) e ltac:(lia)) as Hl. fold d in Hl.
      pose proof (F2R_digits_upper q e' ltac:(lia)) as Hu.
      assert (bpow (2 * (est - 1)) <= F2R (Zpos m) e)%R as Hx.
      { eapply Rle_trans; [|exact Hl]. apply bpow_le. lia. }
      assert (bpow (est - 1) <= sqrt (F2R (Zpos m) e))%R as Hx'.
      { rewrite <- sqrt_bpow. apply sqrt_le_1; try lra.
        - left. apply bpow_pos.
        - pose proof (bpow_pos (2 * (est - 1))). lra. }
      assert (sqrt (F2R (Zpos m) e) < F2R (q + 1) e')%R as Hx''.
      { rewrite Hsqrt. fold T. unfold F2R. rewrite plus_IZR. nra. }
      assert (bpow (est - 1) < bpow (Zdigits2 q + e'))%R as Hlt by lra.
      apply bpow_lt_inv in Hlt. lia. }
    apply (fexp_mono prec emax) in Hmag. unfold e' at 1. lia.
  - rewrite Hscaled.
    destruct (Z.eqb_spec r 0) as [Hr0|Hr0].
    + cbn [loc_ok]. subst r. simpl in HTT. nra.
    + assert (1 <= IZR r)%R by (apply IZR_le; lia).
      destruct (Z.leb_spec r q) as [Hrq|Hrq]; cbn [loc_ok].
      * apply IZR_le in Hrq. split; nra.
      * assert (IZR q + 1 <= IZR r)%R by (rewrite <- plus_IZR; apply IZR_le; lia).
        split; nra.
Qed.

Lemma SFsqrt_rounds_to (m : positive) (e : Z) :
  (sqrt (F2R (Zpos m) e) <= max_value prec emax)%R ->
  rounds_to prec emax (sqrt (F2R (Zpos m) e))
    (SFsqrt prec emax (S754_finite false m e)).
Proof.
  intro Hov. simpl SFsqrt.
  pose proof (SFsqrt_core_located m e) as H.
  destruct (SFsqrt_core_binary prec emax (Zpos m) e) as [[q e'] l].
  destruct H as (Hq & He' & Hloc).
  now apply binary_round_aux_rounds_to.
Qed.

(** The location that division computes from the remainder. *)
Lemma new_location_located (m2 q r : Z) (T : R) :
  (0 < m2)%Z -> (0 <= r < m2)%Z ->
  (T * IZR m2 = IZR q * IZR m2 + IZR r)%R ->
  loc_ok q (new_location m2 r) T.
Proof.
  intros Hm2 Hr HT.
  assert (HM : (0 < IZR m2)%R) by (apply IZR_lt; lia).
  assert (HR0 : (0 <= IZR r)%R) by (apply IZR_le; lia).
  assert (HRM : (IZR r < IZR m2)%R) by (apply IZR_lt; lia).
  assert (Hlt : (2 * r < m2)%Z -> (2 * IZR r < IZR m2)%R).
  { intro H. rewrite <- mult_IZR. now apply IZR_lt. }
  assert (Hgt : (m2 < 2 * r)%Z -> (IZR m2 < 2 * IZR r)%R).
  { intro H. rewrite <- mult_IZR. now apply IZR_lt. }
  assert (Heq : (2 * r = m2)%Z -> (2 * IZR r = IZR m2)%R).
  { intro H. rewrite <- mult_IZR. now f_equal. }
  assert (Hpos : r <> 0%Z -> (1 <= IZR r)%R).
  { intro H. apply IZR_le. lia. }
  unfold new_location, new_location_even, new_location_odd.
  destruct (Z.even m2) eqn:Hev; destruct (Z.eqb_spec r 0) as [Hr0|Hr0].
  - cbn [loc_ok]. subst r. simpl in HT. nra.
  - specialize (Hpos Hr0).
    destruct (Z.compare_spec (2 * r) m2) as [Hc|Hc|Hc]; cbn [loc_ok].
    + specialize (Heq Hc). nra.
    + specialize (Hlt Hc). split; nra.
    + specialize (Hgt Hc). split; nra.
  - cbn [loc_ok]. subst r. simpl in HT. nra.
  - specialize (Hpos Hr0).
    assert (Hodd : (2 * r <> m2)%Z).
    { intro Hc. rewrite <- Hc, Z.even_mul in Hev. discriminate Hev. }
    destruct (Z.compare_spec (2 * r + 1) m2) as [Hc|Hc|Hc]; cbn [loc_ok].
    + assert (2 * r < m2)%Z as Hc' by lia. specialize (Hlt Hc'). split; nra.
    + assert (2 * r < m2)%Z as Hc' by lia. specialize (Hlt Hc'). split; nra.
    + assert (m2 < 2 * r)%Z as Hc' by lia. specialize (Hgt Hc'). split; nra.
Qed.

(** Division: the integer quotient of the shifted mantissas, with its
    location, stands for the real quotient, and carries enough digits. *)
Lemma SFdiv_core_located (m1 m2 : positive) (e1 e2 : Z) :
  let '(q, e', l) := SFdiv_core_binary prec emax (Zpos m1) e1 (Zpos m2) e2 in
  (e' <= fexp prec emax (Zdigits2 q + e'))%Z /\
  loc_ok q l (F2R (Zpos m1) e1 / F2R (Zpos m2) e2 * bpow (- e')) /\
  ((bpow (emin prec emax) <= F2R (Zpos m1) e1 / F2R (Zpos m2) e2)%R -> (0 < q)%Z).
Proof.
  unfold SFdiv_core_binary.
  set (d1 := Zdigits2 (Zpos m1)). set (d2 := Zdigits2 (Zpos m2)).
  set (est := (d1 + e1 - (d2 + e2))%Z).
  set (e' := Z.min (fexp prec emax est) (e1 - e2)).
  set (s := (e1 - e2 - e')%Z).
  assert (Hs : (0 <= s)%Z) by (unfold s, e'; lia).
  set (m' := match s with
             | Zpos _ => Z.shiftl (Zpos m1) s
             | Z0 => Zpos m1
             | Zneg _ => Z0
             end).
  assert (Hm' : m' = (Zpos m1 * 2 ^ s)%Z).
  { unfold m'. destruct s as [|ps|ps] eqn:Hs'.
    - simpl. lia.
    - apply Z.shiftl_mul_pow2. lia.
    - lia. }
  assert (Hpow : (0 < 2 ^ s)%Z) by (apply Z.pow_pos_nonneg; lia).
  assert (Hm'pos : (0 < m')%Z) by (rewrite Hm'; nia).
  pose proof (Z_div_mod m' (Zpos m2) ltac:(lia)) as Hspec.
  destruct (Z.div_eucl m' (Zpos m2)) as [q r].
  destruct Hspec as [Hqr Hr].
  assert (Hq : (0 <= q)%Z) by nia.
  set (x := (F2R (Zpos m1) e1 / F2R (Zpos m2) e2)%R).
  pose proof (bpow_pos e') as Hbe'. pose proof (bpow_pos e2) as Hbe2.
  assert (Hm2R : (0 < IZR (Zpos m2))%R) by (apply IZR_lt; lia).
  assert (Hden : (0 < F2R (Zpos m2) e2)%R) by (unfold F2R; nra).
  assert (Hnum : F2R (Zpos m1) e1 = (IZR m' * bpow e' * bpow e2)%R).
  { replace e1 with ((e' + e2) + s)%Z at 1 by (unfold s; lia).
    rewrite <- F2R_scale by exact Hs. rewrite <- Hm'.
    unfold F2R. rewrite bpow_add. ring. }
  assert (Hx : (x * IZR (Zpos m2) = IZR m' * bpow e')%R).
  { unfold x. rewrite Hnum. unfold F2R. field. lra. }
  set (T := (x * bpow (- e'))%R).
  assert (HT : (T * IZR (Zpos m2) = IZR q * IZR (Zpos m2) + IZR r)%R).
  { unfold T.
    replace (x * bpow (- e') * IZR (Zpos m2))%R
      with (x * IZR (Zpos m2) * bpow (- e'))%R by ring.
    rewrite Hx, Rmult_assoc, <- bpow_add.
    replace (e' + - e')%Z with 0%Z by lia. rewrite bpow_0, Rmult_1_r.
    rewrite Hqr, plus_IZR, mult_IZR. ring. }
  pose proof (new_location_located (Zpos m2) q r T ltac:(lia) ltac:(lia) HT) as Hloc.
  pose proof (loc_ok_bracket _ _ _ Hloc) as HbrT.
  assert (HxT : (x = T * bpow e')%R) by (unfold T; now rewrite bpow_opp_r).
  assert (Hbr : (F2R q e' <= x < F2R (q + 1) e')%R).
  { unfold F2R. rewrite plus_IZR, HxT.
    split; [apply Rmult_le_compat_r|apply Rmult_lt_compat_r]; lra. }
  assert (Hxlo : (bpow (est - 1) < x)%R).
  { pose proof (F2R_digits_lower (Zpos m1) e1 ltac:(lia)) as Hl. fold d1 in Hl.
    pose proof (F2R_digits_upper (Zpos m2) e2 ltac:(lia)) as Hu. fold d2 in Hu.
    assert (F2R (Zpos m2) e2 < bpow (d2 + e2))%R as Hu'.
    { eapply Rlt_le_trans; [|exact Hu]. apply F2R_lt. lia. }
    replace (d1 + e1 - 1)%Z with ((est - 1) + (d2 + e2))%Z in Hl by (unfold est; lia).
    rewrite bpow_add in Hl. pose proof (bpow_pos (est - 1)) as Hb.
    assert (x * F2R (Zpos m2) e2 = F2R (Zpos m1) e1)%R as Hxm.
    { unfold x. field. lra. }
    apply Rmult_lt_reg_r with (F2R (Zpos m2) e2); [exact Hden|].
    rewrite Hxm. eapply Rlt_le_trans; [|exact Hl].
    apply Rmult_lt_compat_l; assumption. }
  pose proof (F2R_digits_upper q e' Hq) as Hqu.
  assert (Hmag : (est <= Zdigits2 q + e')%Z).
  { assert (bpow (est - 1) < bpow (Zdigits2 q + e'))%R as Hlt by lra.
    apply bpow_lt_inv in Hlt. lia. }
  split; [|split; [exact Hloc|]].
  - apply (fexp_mono prec emax) in Hmag. unfold e' at 1. lia.
  - intro Hmin. fold x in Hmin.
    destruct (Z.eq_dec q 0) as [->|]; [|lia]. exfalso.
    destruct Hbr as [_ Hhi]. unfold F2R in Hhi. simpl in Hhi.
    rewrite Rmult_1_l in Hhi.
    assert (bpow e' <= x)%R; [|lra].
    assert (e' <= fexp prec emax est)%Z as He' by (unfold e'; lia).
    unfold fexp in He'.
    destruct (Z.max_spec (est - prec) (emin prec emax)) as [[_ Hmx]|[_ Hmx]];
      rewrite Hmx in He'.
    + eapply Rle_trans; [apply bpow_le; exact He'|exact Hmin].
    + eapply Rle_trans; [apply bpow_le; exact He'|].
      eapply Rle_trans; [apply (bpow_le _ (est - 1)); lia|lra].
Qed.

Lemma SFdiv_rounds_to (m1 m2 : positive) (e1 e2 : Z) :
  (bpow (emin prec emax) <= F2R (Zpos m1) e1 / F2R (Zpos m2) e2)%R ->
  (F2R (Zpos m1) e1 / F2R (Zpos m2) e2 <= max_value prec emax)%R ->
  rounds_to prec emax (F2R (Zpos m1) e1 / F2R (Zpos m2) e2)
    (SFdiv prec emax (S754_finite false m1 e1) (S754_finite false m2 e2)).
Proof.
  intros Hmin Hov. simpl SFdiv.
  pose proof (SFdiv_core_located m1 m2 e1 e2) as H.
  destruct (SFdiv_core_binary prec emax (Zpos m1) e1 (Zpos m2) e2) as [[q e'] l].
  destruct H as (He' & Hloc & Hq).
  apply binary_round_aux_rounds_to; auto.
Qed.

(** Conversion into the format ([binary_round], as [np.float32] uses it). *)
Lemma shl_align_spec (m : positive) (e ex' : Z) :
  let '(mz, ez) := shl_align m e ex' in
  ez = Z.min e ex' /\ Zpos mz = (Zpos m * 2 ^ (e - ez))%Z.
Proof.
  unfold shl_align. destruct (ex' - e)%Z as [|d|d] eqn:Hd.
  - rewrite Z.sub_diag. simpl. lia.
  - rewrite Z.sub_diag. simpl. lia.
  - replace (e - ex')%Z with (Zpos d) by lia.
    fold (shift_pos d m). rewrite shift_pos_correct.
    rewrite Zpower_pos_nat, Zpower_nat_Z, positive_nat_Z. lia.
Qed.

Lemma binary_round_rounds_to (m : positive) (e : Z) :
  (F2R (Zpos m) e <= max_value prec emax)%R ->
  rounds_to prec emax (F2R (Zpos m) e) (binary_round prec emax false m e).
Proof.
  intro Hov. unfold binary_round.
  pose proof (shl_align_spec m e (fexp prec emax (Zpos (digits2_pos m) + e))) as H.
  destruct (shl_align m e (fexp prec emax (Zpos (digits2_pos m) + e))) as [mz ez].
  change (Zpos (digits2_pos m)) with (Zdigits2 (Zpos m)) in *.
  destruct H as [Hez Hmz].
  assert (Hk : (0 <= e - ez)%Z) by lia.
  assert (Hval : F2R (Zpos mz) ez = F2R (Zpos m) e).
  { rewrite Hmz, F2R_scale by exact Hk. f_equal. lia. }
  rewrite <- Hval in *.
  apply binary_round_aux_rounds_to; try lia.
  - assert (Zdigits2 (Zpos m) + e <= Zdigits2 (Zpos mz) + ez)%Z as Hmag.
    { assert (Zdigits2 (Zpos m) + (e - ez) <= Zdigits2 (Zpos mz))%Z; [|lia].
      pose proof (Zdigits2_bounds (Zpos m) ltac:(lia)) as [Hlo _].
      assert (1 <= Zdigits2 (Zpos m))%Z by (simpl; lia).
      apply Zdigits2_ge; [|lia]. rewrite Hmz.
      replace (Zdigits2 (Zpos m) + (e - ez) - 1)%Z
        with ((Zdigits2 (Zpos m) - 1) + (e - ez))%Z by lia.
      rewrite Z.pow_add_r by lia.
      assert (0 < 2 ^ (e - ez))%Z by (apply Z.pow_pos_nonneg; lia). nia. }
    apply (fexp_mono prec emax) in Hmag. lia.
  - cbn [loc_ok]. apply F2R_opp_r.
  - exact Hov.
Qed.
End Operations.

(** ** Self-similarity, within tolerance *)
Section SelfSimilarity.
Variables prec emax : Z.
Hypothesis Hprec : (24 <= prec)%Z.
Hypothesis Hemax : (prec < emax)%Z.
Hypothesis Heven : Z.even emax = true.

Lemma bpow_m24 : bpow (-24) = (/ 16777216)%R.
Proof. unfold bpow. simpl. lra. Qed.

Lemma unit_roundoff_small : (0 < bpow (- prec) <= / 16777216)%R.
Proof.
  split; [apply bpow_pos|]. rewrite <- bpow_m24. apply bpow_le. lia.
Qed.

Lemma pow2_prec_split : (2 ^ prec = 2 * 2 ^ (prec - 1))%Z.
Proof.
  replace prec with (1 + (prec - 1))%Z at 1 by lia.
  rewrite Z.pow_add_r by lia. reflexivity.
Qed.

Lemma max_value_ge : (bpow (emax - 1) <= max_value prec emax)%R.
Proof.
  unfold max_value.
  replace (bpow (emax - 1)) with (F2R (2 ^ (prec - 1)) (emax - prec)).
  - apply F2R_le. pose proof pow2_prec_split.
    assert (0 < 2 ^ (prec - 1))%Z by (apply Z.pow_pos_nonneg; lia). lia.
  - rewrite F2R_pow2 by lia. f_equal. lia.
Qed.

(** The value of a valid positive float lies between the least subnormal
    and the largest finite value. *)
Lemma valid_value_bounds (m : positive) (e : Z) :
  canonical_mantissa prec emax m e = true -> (e <= emax - prec)%Z ->
  (bpow (emin prec emax) <= F2R (Zpos m) e <= max_value prec emax)%R.
Proof.
  intros Hc He. apply canonical_digits in Hc as [Hfe Hd].
  assert (Hemin : (emin prec emax <= e)%Z) by (rewrite Hfe; apply fexp_ge_emin).
  assert (Hd1 : (1 <= Zdigits2 (Zpos m))%Z) by (simpl; lia).
  assert (Hdp : (Zdigits2 (Zpos m) <= prec)%Z) by lia.
  pose proof (Zdigits2_bounds (Zpos m) ltac:(lia)) as [_ Hhi].
  assert (Hm : (Zpos m <= 2 ^ prec - 1)%Z).
  { assert (2 ^ Zdigits2 (Zpos m) <= 2 ^ prec)%Z by (apply Z.pow_le_mono_r; lia).
    lia. }
  split.
  - eapply Rle_trans; [|apply F2R_digits_lower; lia]. apply bpow_le. lia.
  - unfold max_value. apply Rle_trans with (F2R (2 ^ prec - 1) e).
    + now apply F2R_le.
    + unfold F2R. apply Rmult_le_compat_l.
      * apply IZR_le. assert (0 < 2 ^ prec)%Z by (apply Z.pow_pos_nonneg; lia). lia.
      * now apply bpow_le.
Qed.

(** The rounded square root of a finite value can be squared without
    overflow: [emax] is even, so the square root of the largest finite value
    lies below the middle of the last two floats under [2^(emax/2)], and
    rounds down. *)
Lemma rounded_sqrt_square_finite (x : R) (y : spec_float) :
  (0 < x)%R -> (x * x <= max_value prec emax)%R ->
  (bpow (emin prec emax + prec - 1) <= x)%R ->
  rounds_to prec emax x y ->
  (B2R y * B2R y <= max_value prec emax)%R.
Proof.
  intros Hx Hxx Hnorm (mag & m1 & [Hmlo Hmhi] & Hm1 & [Hlo Hhi] & Hy & H1 & _).
  apply Z.even_spec in Heven. destruct Heven as [k Hk].
  set (E := fexp prec emax mag) in *.
  pose proof (bpow_pos E) as HbE.
  assert (Hxk : (x < bpow k)%R).
  { destruct (Rlt_le_dec x (bpow k)) as [Hlt|Hge]; [exact Hlt|exfalso].
    pose proof (max_value_lt prec emax ltac:(lia)) as HM.
    assert (bpow emax = bpow k * bpow k)%R as Hkk.
    { rewrite <- bpow_add. f_equal. lia. }
    rewrite Hkk in HM. pose proof (bpow_pos k). nra. }
  assert (Hmagk : (mag <= k)%Z).
  { assert (bpow (mag - 1) < bpow k)%R as H by lra. apply bpow_lt_inv in H. lia. }
  assert (Hmagn : (emin prec emax + prec - 1 < mag)%Z) by (apply bpow_lt_inv; lra).
  assert (HE : E = (mag - prec)%Z) by (unfold E, fexp; lia).
  assert (Hm1top : (m1 + 1 <= 2 ^ prec)%Z).
  { assert (Hp : bpow mag = F2R (2 ^ prec) E).
    { rewrite F2R_pow2 by lia. f_equal. lia. }
    assert (F2R m1 E < F2R (2 ^ prec) E)%R as Hlt by (rewrite <- Hp; lra).
    apply F2R_lt_inv in Hlt. lia. }
  assert (Hy0 : (0 <= B2R y)%R).
  { assert (0 <= F2R m1 E)%R by (unfold F2R; apply Rmult_le_pos; [apply IZR_le; lia|lra]).
    destruct Hy as [-> | ->]; [assumption|]. rewrite F2R_succ. lra. }
  set (A := IZR (2 ^ prec - 1)).
  assert (HA1 : (A + 1 = IZR (2 ^ prec))%R) by (unfold A; rewrite minus_IZR; lra).
  assert (HA : (1 <= A)%R).
  { unfold A. apply IZR_le.
    pose proof pow2_prec_split.
    assert (0 < 2 ^ (prec - 1))%Z by (apply Z.pow_pos_nonneg; lia). lia. }
  assert (HM : (max_value prec emax = A * (A + 1) * (bpow (k - prec) * bpow (k - prec)))%R).
  { unfold max_value, F2R. fold A. rewrite HA1, IZR_pow2 by lia.
    rewrite <- bpow_add, Rmult_assoc, <- bpow_add. do 2 f_equal. lia. }
  assert (Hyle : (B2R y <= A * bpow (k - prec))%R).
  { destruct (Z.eq_dec mag k) as [Hmk|Hmk].
    - (* the last binade: the exponent is [k - prec] *)
      rewrite Hmk in HE. rewrite HE in *.
      destruct (Z.eq_dec m1 (2 ^ prec - 1)) as [Htop|Hlow].
      + destruct Hy as [Hy|Hy].
        * rewrite Hy, Htop. unfold F2R. fold A. lra.
        * exfalso. rewrite Hy in H1. apply Rabs_le_inv in H1.
          rewrite F2R_succ in H1.
          assert (F2R m1 (k - prec) = A * bpow (k - prec))%R as Hm1v
            by (rewrite Htop; reflexivity).
          rewrite Hm1v in H1, Hlo. rewrite HM in Hxx.
          set (b := bpow (k - prec)) in *.
          assert (A * b + b / 2 <= x)%R as Hmid by lra.
          assert (0 < A * b)%R by nra.
          assert ((A * b + b / 2) * (A * b + b / 2) <= x * x)%R by nra.
          nra.
      + assert (B2R y <= F2R (m1 + 1) (k - prec))%R as Hle.
        { destruct Hy as [-> | ->]; [apply F2R_le; lia|lra]. }
        eapply Rle_trans; [exact Hle|]. apply F2R_le. lia.
    - (* a lower binade *)
      assert (B2R y <= F2R (m1 + 1) E)%R as Hle.
      { destruct Hy as [-> | ->]; [apply F2R_le; lia|lra]. }
      eapply Rle_trans; [exact Hle|].
      apply Rle_trans with (F2R (2 ^ prec) E); [apply F2R_le; lia|].
      rewrite F2R_pow2 by lia.
      apply Rle_trans with (bpow (k - 1)); [apply bpow_le; lia|].
      replace (k - 1)%Z with ((prec - 1) + (k - prec))%Z by lia.
      rewrite bpow_add, <- IZR_pow2 by lia.
      apply Rmult_le_compat_r; [left; apply bpow_pos|].
      unfold A. apply IZR_le. pose proof pow2_prec_split.
      assert (0 < 2 ^ (prec - 1))%Z by (apply Z.pow_pos_nonneg; lia). lia. }
  rewrite HM. pose proof (bpow_pos (k - prec)) as Hb.
  set (b := bpow (k - prec)) in *.
  assert (B2R y * B2R y <= (A * b) * (A * b))%R by nra.
  nra.
Qed.

(** The arithmetic of the error bounds: a square root good to [h], a
    product no further from the square than the squared norm itself, and
    their quotient. *)
Lemma quotient_near_one (h S x1 N D : R) :
  (0 < h <= / 16777216)%R -> (0 < x1)%R -> (x1 * x1 = S)%R ->
  (Rabs (N - x1) <= h * x1)%R ->
  (Rabs (D - N * N) <= Rabs (S - N * N))%R ->
  (0 < N)%R /\ (0 < D)%R /\ (Rabs (S / D - 1) <= 6 * h)%R.
Proof.
  intros [Hh0 Hh1] Hx1 HS HN HD.
  apply Rabs_le_inv in HN.
  assert (HNlo : (x1 * (1 - h) <= N)%R) by lra.
  assert (HNhi : (N <= x1 * (1 + h))%R) by lra.
  assert (HNpos : (0 < N)%R) by nra.
  assert (HSpos : (0 < S)%R) by nra.
  assert (HN2lo : (S * ((1 - h) * (1 - h)) <= N * N)%R).
  { rewrite <- HS. assert (0 <= x1 * (1 - h))%R by nra. nra. }
  assert (HN2hi : (N * N <= S * ((1 + h) * (1 + h)))%R).
  { rewrite <- HS. nra. }
  assert (Hhh : (0 <= h * h <= h / 16777216)%R) by nra.
  assert (Hgap : (Rabs (S - N * N) <= S * (2 * h + h * h))%R).
  { apply Rabs_le. split; nra. }
  assert (HD' : (Rabs (D - N * N) <= S * (2 * h + h * h))%R) by lra.
  apply Rabs_le_inv in HD', Hgap.
  assert (HDlo : (S * (1 - 5 * h) <= D)%R) by nra.
  assert (HDhi : (D <= S * (1 + 5 * h))%R) by nra.
  assert (HDpos : (0 < D)%R) by nra.
  split; [exact HNpos|]. split; [exact HDpos|].
  assert (Hup : (S <= D * (1 + 6 * h))%R).
  { apply Rle_trans with (S * ((1 - 5 * h) * (1 + 6 * h)))%R; [nra|].
    rewrite <- Rmult_assoc. apply Rmult_le_compat_r; lra. }
  assert (Hdn : (D * (1 - 6 * h) <= S)%R).
  { apply Rle_trans with (S * ((1 + 5 * h) * (1 - 6 * h)))%R; [|nra].
    rewrite <- Rmult_assoc. apply Rmult_le_compat_r; lra. }
  apply Rabs_le.
  assert (S / D * D = S)%R as Hq by (field; lra).
  split.
  - apply Rmult_le_reg_r with D; [exact HDpos|]. rewrite Rmult_minus_distr_r, Hq. lra.
  - apply Rmult_le_reg_r with D; [exact HDpos|]. rewrite Rmult_minus_distr_r, Hq. lra.
Qed.

(** [similarity(u, u)] depends on [u] through its squared norm only; for
    every valid positive finite squared norm, subnormal ones included, it is
    within [2^-21] of 1. *)
Lemma self_cosine_close (ms : positive) (es : Z) :
  valid_binary prec emax (S754_finite false ms es) = true ->
  close_to_one (/ 2097152)
    (numpy.float32
       (SFdiv prec emax (S754_finite false ms es)
          (SFmul prec emax (SFsqrt prec emax (S754_finite false ms es))
                           (SFsqrt prec emax (S754_finite false ms es))))).
Proof.
  intro Hv. unfold valid_binary, bounded in Hv.
  apply andb_prop in Hv as [Hcs Hes]. apply Z.leb_le in Hes.
  assert (Hprec2 : (2 <= prec)%Z) by lia.
  pose proof unit_roundoff_small as Hh.
  set (h := bpow (- prec)) in *.
  set (s := S754_finite false ms es).
  set (S := F2R (Zpos ms) es).
  pose proof (valid_value_bounds ms es Hcs Hes) as [HSlo HShi]. fold S in HSlo, HShi.
  assert (HSpos : (0 < S)%R).
  { pose proof (bpow_pos (emin prec emax)). lra. }
  pose proof max_value_ge as HMge.
  pose proof (max_value_lt prec emax Hprec2) as HMlt.
  (* the norm *)
  set (x1 := sqrt S).
  assert (Hx1pos : (0 < x1)%R) by (apply sqrt_lt_R0; exact HSpos).
  assert (Hx1sq : (x1 * x1 = S)%R) by (apply sqrt_def; lra).
  assert (Hx1lo : (bpow (emin prec emax + prec - 1) <= x1)%R).
  { rewrite <- sqrt_bpow. apply sqrt_le_1; try lra.
    - left. apply bpow_pos.
    - eapply Rle_trans; [|exact HSlo]. apply bpow_le. unfold emin. lia. }
  assert (Hx1hi : (x1 <= max_value prec emax)%R).
  { destruct (Rle_lt_dec x1 (max_value prec emax)) as [Hle|Hgt]; [exact Hle|exfalso].
    assert (1 <= bpow (emax - 1))%R by (apply bpow_ge_1; lia).
    nra. }
  pose proof (SFsqrt_rounds_to prec emax Hprec2 Hemax ms es Hx1hi) as Hr1.
  fold S x1 s in Hr1.
  pose proof (rounds_to_relative prec emax x1 _ Hr1 Hx1lo) as Hrel1. fold h in Hrel1.
  pose proof (rounded_sqrt_square_finite x1 _ Hx1pos ltac:(lra) Hx1lo Hr1) as Hsq.
  assert (HNpos : (0 < B2R (SFsqrt prec emax s))%R).
  { pose proof (Rabs_le_inv _ _ Hrel1). nra. }
  destruct (rounds_to_positive prec emax x1 _ Hr1 HNpos) as (mn & en & Hn & Hcn & _).
  rewrite Hn in *. simpl B2R in *.
  set (N := F2R (Zpos mn) en) in *.
  (* the product of the norms *)
  pose proof (SFmul_rounds_to prec emax Hprec2 Hemax mn mn en en Hcn Hcn Hsq) as Hr2.
  fold N in Hr2.
  pose proof (rounds_to_nearest prec emax Hprec2 (N * N) _ ms es Hr2 Hcs) as Hnear.
  fold S in Hnear.
  destruct (quotient_near_one h S x1 N _ Hh Hx1pos Hx1sq Hrel1 Hnear)
    as (_ & HDpos & Hquo).
  destruct (rounds_to_positive prec emax (N * N) _ Hr2 HDpos) as (md & ed & Hd & _ & _).
  rewrite Hd in *. simpl B2R in *.
  set (D := F2R (Zpos md) ed) in *.
  (* the quotient *)
  apply Rabs_le_inv in Hquo.
  assert (H2max : (2 <= max_value prec emax)%R).
  { eapply Rle_trans; [|exact HMge]. rewrite <- bpow_1. apply bpow_le. lia. }
  assert (Hx3lo : (bpow (emin prec emax) <= S / D)%R).
  { apply Rle_trans with (bpow (-1)); [apply bpow_le; unfold emin; lia|].
    rewrite bpow_m1. lra. }
  assert (Hx3hi : (S / D <= max_value prec emax)%R) by lra.
  pose proof (SFdiv_rounds_to prec emax Hprec2 Hemax ms md es ed Hx3lo Hx3hi) as Hr3.
  fold S D s in Hr3.
  assert (Hqerr : (Rabs (B2R (SFdiv prec emax s (S754_finite false md ed)) - S / D)
                   <= h)%R).
  { destruct (rounds_to_half_ulp prec emax _ _ Hr3) as (mag & [Hmlo Hmhi] & Herr).
    assert (mag <= 1)%Z as Hmag.
    { assert (bpow (mag - 1) < bpow 1)%R as H by (rewrite bpow_1; lra).
      apply bpow_lt_inv in H. lia. }
    eapply Rle_trans; [exact Herr|].
    assert (bpow (fexp prec emax mag) <= bpow (- prec + 1))%R as Hb
      by (apply bpow_le; unfold fexp, emin; lia).
    rewrite bpow_plus_1 in Hb. fold h in Hb. lra. }
  apply Rabs_le_inv in Hqerr.
  assert (HQpos : (0 < B2R (SFdiv prec emax s (S754_finite false md ed)))%R) by lra.
  destruct (rounds_to_positive prec emax (S / D) _ Hr3 HQpos) as (mq & eq & Hq & _ & _).
  rewrite Hq in *. simpl B2R in *. simpl numpy.float32.
  set (Q := F2R (Zpos mq) eq) in *.
  (* the conversion to binary32 *)
  assert (HQhi : (Q <= max_value 24 128)%R).
  { apply Rle_trans with 2%R; [lra|]. unfold max_value, F2R, bpow. simpl. lra. }
  pose proof (binary_round_rounds_to 24 128 ltac:(lia) ltac:(lia) mq eq HQhi) as Hr4.
  fold Q in Hr4.
  pose proof (rounds_to_number 24 128 _ _ Hr4) as Hnum.
  destruct (rounds_to_half_ulp 24 128 _ _ Hr4) as (mag & [Hmlo Hmhi] & Herr).
  assert (mag <= 1)%Z as Hmag.
  { assert (bpow (mag - 1) < bpow 1)%R as H by (rewrite bpow_1; lra).
    apply bpow_lt_inv in H. lia. }
  assert (Herr' : (Rabs (B2R (binary_round 24 128 false mq eq) - Q) <= / 16777216)%R).
  { eapply Rle_trans; [exact Herr|].
    assert (bpow (fexp 24 128 mag) <= bpow (-24 + 1))%R as Hb
      by (apply bpow_le; unfold fexp, emin; lia).
    rewrite bpow_plus_1, bpow_m24 in Hb. lra. }
  apply Rabs_le_inv in Herr'.
  split; [exact Hnum|]. apply Rabs_le. lra.
Qed.
End SelfSimilarity.

Lemma self_cosine_nan (prec emax : Z) (s : spec_float) :
  positive_finite s = false ->
  SFdiv prec emax s (SFmul prec emax (SFsqrt prec emax s) (SFsqrt prec emax s))
  = S754_nan.
Proof. destruct s as [[|]|[|]| |[|] m e]; try discriminate; reflexivity. Qed.

(** C6, as amended.  For vectors of equal length, [similarity(u, v)] and
    [similarity(v, u)] return the same float: the same zero, infinity or
    finite number with the same sign, mantissa and exponent, or NaN both
    times; compared with [==] the two floats are equal unless they are
    NaN.  In a format at least as wide as binary32 and with an even
    [emax] (binary32 and binary64 are such), for a vector [u] whose squared
    norm, as computed, is a positive finite float of the format, normal or
    subnormal, [similarity(u, u)] is a number within [2^-21] of 1.  In every
    other case (the squared norm is zero, infinite, NaN or negative: the
    zero vector, underflow, overflow), [similarity(u, u)] is NaN. *)
Theorem similarity_symmetric_and_self_near_one
    {S : Type} (self : Provider S) (prec emax : Z)
    (reduce : list spec_float -> spec_float)
    (Hprec : (24 <= prec)%Z) (Hemax : (prec < emax)%Z)
    (Heven : Z.even emax = true)
    (u v : ndarray) (w : World S) (Hnp : np (rt w) <> None)
    (Hlen : List.length u = List.length v) :
  BaseEmbeddings.similarity (S:=S) prec emax reduce u v w =
    BaseEmbeddings.similarity (S:=S) prec emax reduce v u w /\
  (forall a b,
     fst (BaseEmbeddings.similarity (S:=S) prec emax reduce u v w) = Ok a ->
     fst (BaseEmbeddings.similarity (S:=S) prec emax reduce v u w) = Ok b ->
     a = b /\ SFeqb a b = negb (is_nan a)) /\
  (positive_finite (dot_product prec emax reduce u u) = true ->
   valid_binary prec emax (dot_product prec emax reduce u u) = true ->
   exists r,
     BaseEmbeddings.similarity (S:=S) prec emax reduce u u w = (Ok r, w) /\
     close_to_one (/ 2097152) r) /\
  (positive_finite (dot_product prec emax reduce u u) = false ->
   BaseEmbeddings.similarity (S:=S) prec emax reduce u u w = (Ok S754_nan, w)).
Proof.
  split; [now apply similarity_comm|]. split; [|split].
  - intros a b Ha Hb. rewrite (similarity_comm prec emax reduce u v w Hlen), Hb in Ha.
    injection Ha as <-. split; [reflexivity|apply SFeqb_refl].
  - intros Hpos Hvalid. rewrite similarity_run.
    destruct (np (rt w)); [|now elim Hnp].
    rewrite Nat.eqb_refl. eexists. split; [reflexivity|].
    unfold cosine_similarity, euclidean_norm.
    destruct (dot_product prec emax reduce u u) as [sg|sg| |[|] ms es];
      try discriminate Hpos.
    now apply self_cosine_close.
  - intro Hbad. rewrite similarity_run.
    destruct (np (rt w)); [|now elim Hnp].
    rewrite Nat.eqb_refl. unfold cosine_similarity, euclidean_norm.
    now rewrite self_cosine_nan.
Qed.

Lemma similarity_symmetric_and_self_near_one_witness :
  similarity64 [f64 3 0; f64 4 0] [f64 4 0; f64 3 0] ready =
    similarity64 [f64 4 0; f64 3 0] [f64 3 0; f64 4 0] ready /\
  exists r,
    similarity64 [f64 3 0; f64 4 0] [f64 3 0; f64 4 0] ready = (Ok r, ready) /\
    close_to_one (/ 2097152) r.
Proof.
  pose proof (similarity_symmetric_and_self_near_one counting 53 1024
                (numpy.sequential 53 1024) ltac:(lia) ltac:(lia) eq_refl
                [f64 3 0; f64 4 0] [f64 4 0; f64 3 0] ready) as H.
  destruct H as (Hsym & _ & Hself & _).
  - simpl. discriminate.
  - reflexivity.
  - split; [exact Hsym|]. apply Hself; vm_compute; reflexivity.
Defined.

(** C6 as stated fails twice.  Self-similarity: the vector (2^600) is not
    the zero vector, but its square overflows in float64 and
    [similarity(u, u)] is NaN (the same happens in float32 from 2^64 on, and
    with squares that underflow to zero).  Symmetry under [==]: for the zero
    vector against (1), both orders give NaN, and NaN is not equal to
    itself. *)
Lemma similarity_self_nan_and_nan_not_equal :
  is_zero (f64 1 600) = false /\
  fst (similarity64 [f64 1 600] [f64 1 600] ready) = Ok S754_nan /\
  is_number S754_nan = false /\
  fst (similarity64 [f64 0 0] [f64 1 0] ready) = Ok S754_nan /\
  fst (similarity64 [f64 1 0] [f64 0 0] ready) = Ok S754_nan /\
  SFeqb S754_nan S754_nan = false.
Proof. vm_compute. repeat split; reflexivity. Qed.

Example similarity32_self_overflow :
  fst (BaseEmbeddings.similarity (S:=nat) 24 128 (numpy.sequential 24 128)
         [binary_normalize 24 128 1 64 false] [binary_normalize 24 128 1 64 false]
         ready) = Ok S754_nan.
Proof. vm_compute. reflexivity. Qed.

Example similarity64_self_underflow :
  fst (similarity64 [f64 1 (-600)] [f64 1 (-600)] ready) = Ok S754_nan.
Proof. vm_compute. reflexivity. Qed.

(** The two ends of the range of the amended claim: a squared norm that is
    the least subnormal float64, and one in the last binade. *)
Example similarity64_self_subnormal :
  dot_product 53 1024 (numpy.sequential 53 1024) [f64 1 (-537)] [f64 1 (-537)]
    = S754_finite false 1 (-1074) /\
  fst (similarity64 [f64 1 (-537)] [f64 1 (-537)] ready) = Ok one32.
Proof. vm_compute. split; reflexivity. Qed.

Example similarity64_self_largest :
  fst (similarity64 [f64 3 510] [f64 3 510] ready) = Ok one32.
Proof. vm_compute. reflexivity. Qed.

(** * Further properties of the class *)

(** ** Batches: composition, state, providers without state *)
Section BatchMore.
Context {S : Type}.
Variable self : Provider S.

Lemma embed_batch_cons (t : pyval) (rest : list pyval) (w : World S) :
  BaseEmbeddings.embed_batch self (t :: rest) w =
  match BaseEmbeddings.call_embed self t w with
  | (Ok v, w1) =>
      match BaseEmbeddings.embed_batch self rest w1 with
      | (Ok vs, w2) => (Ok (v :: vs), w2)
      | (Raise e, w2) => (Raise e, w2)
      end
  | (Raise e, w1) => (Raise e, w1)
  end.
Proof.
  unfold BaseEmbeddings.embed_batch. simpl comprehension. unfold bind at 1.
  destruct (BaseEmbeddings.call_embed self t w) as [[v|e] w1]; [|reflexivity].
  unfold bind, ret.
  destruct (comprehension (BaseEmbeddings.call_embed self) rest w1) as [[vs|e] w2];
    reflexivity.
Qed.

Lemma embed_batch_nil (w : World S) :
  BaseEmbeddings.embed_batch self [] w = (Ok [], w).
Proof. reflexivity. Qed.

Lemma state_before_all_cons (t : pyval) (rest : list pyval) (s : S) :
  state_before self (t :: rest) s (List.length (t :: rest)) =
  state_before self rest (snd (embed self t s)) (List.length rest).
Proof. reflexivity. Qed.

Lemma embed_batch_stateless_any (texts : list pyval) :
  (forall t s s', fst (embed self t s) = fst (embed self t s')) ->
  forall (w : World S) (s0 : S),
    fst (BaseEmbeddings.embed_batch self texts w) =
    all_or_first_error (map (fun t => fst (embed self t s0)) texts).
Proof.
  intro Hpure. induction texts as [|t rest IH]; intros w s0; [reflexivity|].
  rewrite embed_batch_cons, call_embed_run. simpl map. simpl all_or_first_error.
  rewrite (Hpure t (pstate w) s0).
  destruct (fst (embed self t s0)) as [v|e]; [|reflexivity].
  rewrite <- (IH {| rt := rt w; pstate := snd (embed self t (pstate w));
                    trace := trace w ++ [EvEmbed t] |} s0).
  destruct (BaseEmbeddings.embed_batch self rest _) as [[vs|e] w2]; reflexivity.
Qed.
End BatchMore.

(** X1: a batch over [xs ++ ys] is the batch over [xs] followed, in the
    world it leaves, by the batch over [ys], the two lists of vectors put end
    to end; when the batch over [xs] raises, no text of [ys] is touched. *)
Theorem embed_batch_app
    {S : Type} (self : Provider S) (xs ys : list pyval) (w : World S) :
  BaseEmbeddings.embed_batch self (xs ++ ys) w =
  match BaseEmbeddings.embed_batch self xs w with
  | (Ok vs, w1) =>
      match BaseEmbeddings.embed_batch self ys w1 with
      | (Ok vs', w2) => (Ok (vs ++ vs'), w2)
      | (Raise e, w2) => (Raise e, w2)
      end
  | (Raise e, w1) => (Raise e, w1)
  end.
Proof.
  revert w. induction xs as [|x xs IH]; intro w.
  - rewrite embed_batch_nil. simpl app.
    destruct (BaseEmbeddings.embed_batch self ys w) as [[vs|e] w2]; reflexivity.
  - simpl app. rewrite !embed_batch_cons.
    destruct (BaseEmbeddings.call_embed self x w) as [[v|e] w1]; [|reflexivity].
    rewrite IH.
    destruct (BaseEmbeddings.embed_batch self xs w1) as [[vs|e] w2]; [|reflexivity].
    destruct (BaseEmbeddings.embed_batch self ys w2) as [[vs'|e] w3]; reflexivity.
Qed.

(** X2: the default [embed_batch] does not undo anything.  When it returns,
    the provider's state is the one left by the calls of all the texts, one
    after another; when it raises, it is the one left by the calls up to and
    including the failing one. *)
Theorem embed_batch_keeps_state_changes
    {S : Type} (self : Provider S) (texts : list pyval) (w : World S) :
  match BaseEmbeddings.embed_batch self texts w with
  | (Ok _, w') =>
      pstate w' = state_before self texts (pstate w) (List.length texts)
  | (Raise e, w') =>
      exists k t,
        nth_error texts k = Some t /\
        call_outcome self texts (pstate w) k t = Raise e /\
        pstate w' = state_before self texts (pstate w) (Datatypes.S k)
  end.
Proof.
  revert w. induction texts as [|t rest IH]; intro w; [reflexivity|].
  rewrite embed_batch_cons, call_embed_run.
  destruct (fst (embed self t (pstate w))) as [v|e] eqn:Hhd.
  - specialize (IH {| rt := rt w; pstate := snd (embed self t (pstate w));
                      trace := trace w ++ [EvEmbed t] |}).
    destruct (BaseEmbeddings.embed_batch self rest _) as [[vs|e] w2].
    + rewrite state_before_all_cons. exact IH.
    + destruct IH as (k & tk & Hk & Hout & Hst).
      exists (Datatypes.S k), tk. split; [exact Hk|]. split.
      * unfold call_outcome. rewrite state_before_cons. exact Hout.
      * rewrite state_before_cons. exact Hst.
  - exists 0, t. split; [reflexivity|]. split; [exact Hhd|reflexivity].
Qed.

(** X3: for a provider whose [embed] gives the same outcome whatever the
    provider's state, the default [embed_batch] gives all the outcomes that
    [embed] gives on each text alone, in order, or else the first error among
    them. *)
Theorem embed_batch_is_each_embed_alone
    {S : Type} (self : Provider S) (texts : list pyval) (w : World S)
    (Hpure : forall t s s', fst (embed self t s) = fst (embed self t s')) :
  fst (BaseEmbeddings.embed_batch self texts w) =
  all_or_first_error
    (map (fun t => fst (BaseEmbeddings.call_embed self t w)) texts).
Proof.
  rewrite (embed_batch_stateless_any self texts Hpure w (pstate w)).
  f_equal. apply map_ext. intro t. now rewrite call_embed_run.
Qed.

Lemma counting_embed_stateless (t : pyval) (s s' : nat) :
  fst (counting_embed t s) = fst (counting_embed t s').
Proof.
  destruct t; try reflexivity. simpl. destruct (String.eqb s0 "boom"); reflexivity.
Defined.

Lemma embed_batch_is_each_embed_alone_witness :
  fst (BaseEmbeddings.embed_batch counting [PyStr "a"; PyStr "bb"] (fresh ["numpy"])) =
  all_or_first_error
    (map (fun t => fst (BaseEmbeddings.call_embed counting t (fresh ["numpy"])))
         [PyStr "a"; PyStr "bb"]).
Proof.
  apply (embed_batch_is_each_embed_alone counting [PyStr "a"; PyStr "bb"]
           (fresh ["numpy"])).
  exact counting_embed_stateless.
Defined.

(** ** Dimension *)

(** X4: when every vector that [embed] returns has length [d] (the
    provider's [dimension]), the default [embed_batch] returns vectors of
    length [d] only, and, once [np] is bound, [similarity] of any two of
    them returns a float: it cannot raise for shapes that do not match. *)
Theorem embed_batch_keeps_dimension
    {S : Type} (self : Provider S) (d : nat) (texts : list pyval) (w : World S)
    (Hdim : forall t s v, fst (embed self t s) = Ok v -> List.length v = d) :
  match BaseEmbeddings.embed_batch self texts w with
  | (Ok vs, w') =>
      Forall (fun v => List.length v = d) vs /\
      (np (rt w) <> None ->
       forall u v prec emax reduce, In u vs -> In v vs ->
         exists r,
           BaseEmbeddings.similarity (S:=S) prec emax reduce u v w' = (Ok r, w'))
  | (Raise _, _) => True
  end.
Proof.
  pose proof (embed_batch_run self texts w) as H.
  destruct (BaseEmbeddings.embed_batch self texts w) as [[vs|e] w']; [|exact I].
  destruct H as (Hlen & Hrt & _ & Hnth).
  assert (Hall : forall v, In v vs -> List.length v = d).
  { intros v Hin. apply In_nth_error in Hin as [i Hi].
    assert (i < List.length texts) as Hlt.
    { rewrite <- Hlen. apply nth_error_Some. congruence. }
    destruct (nth_error texts i) as [t|] eqn:Ht.
    - destruct (Hnth i t Ht) as (v' & Hv' & Hout).
      rewrite Hv' in Hi. injection Hi as <-.
      unfold call_outcome in Hout. exact (Hdim _ _ _ Hout).
    - apply nth_error_None in Ht. lia. }
  split; [apply Forall_forall; exact Hall|].
  intros Hnp u v prec emax reduce Hu Hv.
  rewrite similarity_run, Hrt.
  destruct (np (rt w)); [|now elim Hnp].
  rewrite (Hall u Hu), (Hall v Hv), Nat.eqb_refl. eexists. reflexivity.
Qed.

Lemma counting_embed_dimension (t : pyval) (s : nat) (v : ndarray) :
  fst (counting_embed t s) = Ok v -> List.length v = 1.
Proof.
  destruct t; try discriminate. simpl.
  destruct (String.eqb s0 "boom"); [discriminate|]. now intros [= <-].
Defined.

Lemma embed_batch_keeps_dimension_witness :
  match BaseEmbeddings.embed_batch counting [PyStr "a"; PyStr "bb"] ready with
  | (Ok vs, w') =>
      Forall (fun v => List.length v = 1) vs /\
      (np (rt ready) <> None ->
       forall u v prec emax reduce, In u vs -> In v vs ->
         exists r,
           BaseEmbeddings.similarity (S:=nat) prec emax reduce u v w' = (Ok r, w'))
  | (Raise _, _) => True
  end.
Proof.
  apply (embed_batch_keeps_dimension counting 1 [PyStr "a"; PyStr "bb"] ready).
  exact counting_embed_dimension.
Defined.

Example embed_batch_keeps_dimension_returns :
  exists vs w', BaseEmbeddings.embed_batch counting [PyStr "a"; PyStr "bb"] ready
                = (Ok vs, w').
Proof. eexists. eexists. vm_compute. reflexivity. Qed.

(** ** Similarity: vectors of different lengths *)

Lemma string_of_uint_no_comma (d : Decimal.uint) :
  no_comma (NilEmpty.string_of_uint d) = true.
Proof. induction d; simpl; try rewrite IHd; reflexivity. Qed.

Lemma repr_nat_inj (n m : nat) : repr_nat n = repr_nat m -> n = m.
Proof.
  unfold repr_nat. intro H.
  assert (Nat.to_uint n = Nat.to_uint m) as Hu.
  { pose proof (NilEmpty.usu (Nat.to_uint n)) as Hn.
    pose proof (NilEmpty.usu (Nat.to_uint m)) as Hm.
    rewrite H in Hn. rewrite Hn in Hm. now injection Hm. }
  rewrite <- (DecimalNat.Unsigned.of_to n), <- (DecimalNat.Unsigned.of_to m).
  now rewrite Hu.
Qed.

(** Two runs of digits that are each followed by a comma are the same run
    when the two texts are the same. *)
Lemma before_comma_inj (a b x y : string) :
  no_comma a = true -> no_comma b = true ->
  String.append a (String "," x) = String.append b (String "," y) -> a = b.
Proof.
  revert b. induction a as [|c a IH]; intros [|d b] Ha Hb H; simpl in *.
  - reflexivity.
  - injection H as Hc _. subst d. discriminate Hb.
  - injection H as Hc _. subst c. discriminate Ha.
  - injection H as -> H. apply andb_prop in Ha as [_ Ha], Hb as [_ Hb].
    f_equal. now apply IH.
Qed.

Lemma shapes_not_aligned_inj (n m n' m' : nat) :
  shapes_not_aligned n m = shapes_not_aligned n' m' -> n = n'.
Proof.
  unfold shapes_not_aligned. intro H. simpl in H.
  injection H as H. apply repr_nat_inj.
  eapply before_comma_inj; [apply string_of_uint_no_comma..|exact H].
Qed.

(** X5: on vectors of different lengths, with [np] bound, [similarity]
    raises numpy's [ValueError] in both orders of the arguments and returns
    nothing, but not the same error: the message names the two shapes in the
    order of the arguments, so the two messages differ.  The symmetry of
    [similarity] is a symmetry of its results only. *)
Theorem similarity_shape_errors_differ
    {S : Type} (prec emax : Z) (reduce : list spec_float -> spec_float)
    (u v : ndarray) (w : World S)
    (Hnp : np (rt w) <> None) (Hlen : List.length u <> List.length v) :
  BaseEmbeddings.similarity (S:=S) prec emax reduce u v w =
    (Raise (ValueError (shapes_not_aligned (List.length u) (List.length v))), w) /\
  BaseEmbeddings.similarity (S:=S) prec emax reduce v u w =
    (Raise (ValueError (shapes_not_aligned (List.length v) (List.length u))), w) /\
  BaseEmbeddings.similarity (S:=S) prec emax reduce u v w <>
    BaseEmbeddings.similarity (S:=S) prec emax reduce v u w.
Proof.
  rewrite !similarity_run. destruct (np (rt w)); [|now elim Hnp].
  destruct (Nat.eqb_spec (List.length u) (List.length v)) as [Heq|_];
    [now elim Hlen|].
  destruct (Nat.eqb_spec (List.length v) (List.length u)) as [Heq|_];
    [now elim Hlen|].
  split; [reflexivity|]. split; [reflexivity|].
  intro H.
  assert (shapes_not_aligned (List.length u) (List.length v)
          = shapes_not_aligned (List.length v) (List.length u)) as H'
    by congruence.
  apply shapes_not_aligned_inj in H'. now elim Hlen.
Qed.

Lemma similarity_shape_errors_differ_witness :
  similarity64 [f64 1 0; f64 2 0; f64 3 0] [f64 1 0; f64 2 0] ready =
    (Raise (ValueError "shapes (3,) and (2,) not aligned: 3 (dim 0) != 2 (dim 0)"),
     ready) /\
  similarity64 [f64 1 0; f64 2 0] [f64 1 0; f64 2 0; f64 3 0] ready =
    (Raise (ValueError "shapes (2,) and (3,) not aligned: 2 (dim 0) != 3 (dim 0)"),
     ready).
Proof.
  pose proof (similarity_shape_errors_differ 53 1024 (numpy.sequential 53 1024)
                [f64 1 0; f64 2 0; f64 3 0] [f64 1 0; f64 2 0] ready) as H.
  destruct H as (H1 & H2 & _).
  - simpl. discriminate.
  - simpl. discriminate.
  - split; [exact H1|exact H2].
Defined.

(** ** Similarity: the result is a binary32 float *)
Section RoundValid.
Variables prec emax : Z.
Hypothesis Hprec : (1 <= prec)%Z.

(** Rounding any finite value into a format gives a float of the format. *)
Lemma binary_round_valid (s : bool) (m : positive) (e : Z) :
  valid_binary prec emax (binary_round prec emax s m e) = true.
Proof.
  unfold binary_round.
  pose proof (shl_align_spec m e (fexp prec emax (Zpos (digits2_pos m) + e))) as H.
  destruct (shl_align m e (fexp prec emax (Zpos (digits2_pos m) + e))) as [mz ez].
  change (Zpos (digits2_pos m)) with (Zdigits2 (Zpos m)) in *.
  destruct H as [Hez Hmz].
  assert (He : (ez <= fexp prec emax (Zdigits2 (Zpos mz) + ez))%Z).
  { assert (Zdigits2 (Zpos m) + e <= Zdigits2 (Zpos mz) + ez)%Z as Hmag.
    { assert (Zdigits2 (Zpos m) + (e - ez) <= Zdigits2 (Zpos mz))%Z; [|lia].
      pose proof (Zdigits2_bounds (Zpos m) ltac:(lia)) as [Hlo _].
      assert (1 <= Zdigits2 (Zpos m))%Z by (simpl; lia).
      apply Zdigits2_ge; [|lia]. rewrite Hmz.
      replace (Zdigits2 (Zpos m) + (e - ez) - 1)%Z
        with ((Zdigits2 (Zpos m) - 1) + (e - ez))%Z by lia.
      rewrite Z.pow_add_r by lia.
      assert (0 < 2 ^ (e - ez))%Z by (apply Z.pow_pos_nonneg; lia). nia. }
    apply (fexp_mono prec emax) in Hmag. lia. }
  destruct (binary_round_aux_shape prec emax Hprec s (Zpos mz) ez loc_Exact
              ltac:(lia) He) as (_ & _ & _ & _ & Hshape).
  destruct (binary_round_aux prec emax s (Zpos mz) ez loc_Exact) as [sr|sr| |sr mr er];
    try reflexivity.
  destruct Hshape as (_ & _ & _ & Hle & Hc).
  unfold valid_binary, bounded. rewrite Hc. apply Z.leb_le. exact Hle.
Qed.
End RoundValid.

(** X6: whatever the format of the arrays and the order of the sum, when
    [similarity] returns, what it returns is a binary32 float: a zero, an
    infinity, NaN, or a finite float with a canonical 24-bit mantissa and an
    exponent in range. *)
Theorem similarity_returns_binary32
    {S : Type} (prec emax : Z) (reduce : list spec_float -> spec_float)
    (u v : ndarray) (w : World S) :
  match fst (BaseEmbeddings.similarity (S:=S) prec emax reduce u v w) with
  | Ok r => valid_binary 24 128 r = true
  | Raise _ => True
  end.
Proof.
  unfold BaseEmbeddings.similarity.
  destruct (np (rt w)); [|exact I].
  destruct (numpy.dot prec emax reduce u (numpy.T v)); [|exact I].
  cbn [fst]. unfold numpy.float32.
  destruct (SFdiv prec emax a _) as [sq|sq| |sq mq eq]; try reflexivity.
  apply binary_round_valid. lia.
Qed.

(** ** Similarity: zero vectors and NaN, with the products added in order *)
Section Sequential.
Variables prec emax : Z.

Lemma SFadd_nan_r (x : spec_float) : SFadd prec emax x S754_nan = S754_nan.
Proof. destruct x; reflexivity. Qed.

Lemma sequential_from_nan (xs : list spec_float) :
  fold_left (SFadd prec emax) xs S754_nan = S754_nan.
Proof. induction xs as [|x xs IH]; [reflexivity|exact IH]. Qed.

Lemma sequential_nan (xs : list spec_float) :
  existsb is_nan xs = true ->
  forall acc, fold_left (SFadd prec emax) xs acc = S754_nan.
Proof.
  induction xs as [|x xs IH]; [discriminate|]. intros H acc. simpl in *.
  apply orb_prop in H as [H|H].
  - destruct x; try discriminate H. rewrite SFadd_nan_r. apply sequential_from_nan.
  - now apply IH.
Qed.

Lemma sequential_zero_or_nan (xs : list spec_float) :
  forallb zero_or_nan xs = true ->
  forall acc, zero_or_nan acc = true ->
    zero_or_nan (fold_left (SFadd prec emax) xs acc) = true.
Proof.
  induction xs as [|x xs IH]; intros H acc Hacc; [exact Hacc|]. simpl in *.
  apply andb_prop in H as [Hx Hxs]. apply IH; [exact Hxs|].
  destruct acc as [[|]| | |]; try discriminate Hacc;
    destruct x as [[|]| | |]; try discriminate Hx; reflexivity.
Qed.

Lemma sequential_zeros (xs : list spec_float) :
  forallb is_zero xs = true ->
  forall acc, is_zero acc = true ->
    is_zero (fold_left (SFadd prec emax) xs acc) = true.
Proof.
  induction xs as [|x xs IH]; intros H acc Hacc; [exact Hacc|]. simpl in *.
  apply andb_prop in H as [Hx Hxs]. apply IH; [exact Hxs|].
  destruct acc as [[|]| | |]; try discriminate Hacc;
    destruct x as [[|]| | |]; try discriminate Hx; reflexivity.
Qed.

Lemma products_of_nan (u : ndarray) :
  existsb is_nan u = true ->
  forall v, List.length u = List.length v ->
    existsb is_nan (pairwise_products prec emax u v) = true.
Proof.
  induction u as [|x u IH]; [discriminate|].
  intros H [|y v] Hlen; [discriminate Hlen|]. simpl in *.
  apply orb_prop in H as [H|H].
  - destruct x; try discriminate H. reflexivity.
  - rewrite (IH H v) by lia. apply orb_true_r.
Qed.

Lemma products_of_zeros (u : ndarray) :
  forallb is_zero u = true ->
  forall v, forallb zero_or_nan (pairwise_products prec emax u v) = true.
Proof.
  induction u as [|x u IH]; [reflexivity|].
  intros H [|y v]; [reflexivity|]. simpl in *.
  apply andb_prop in H as [Hx Hu]. rewrite (IH Hu v), andb_true_r.
  destruct x; try discriminate Hx. destruct y; reflexivity.
Qed.

Lemma squares_of_zeros (u : ndarray) :
  forallb is_zero u = true ->
  forallb is_zero (pairwise_products prec emax u u) = true.
Proof.
  induction u as [|x u IH]; [reflexivity|]. simpl. intro H.
  apply andb_prop in H as [Hx Hu]. rewrite (IH Hu), andb_true_r.
  destruct x; try discriminate Hx. reflexivity.
Qed.

Lemma cosine_nan_left (u v : ndarray) :
  existsb is_nan u = true -> List.length u = List.length v ->
  cosine_similarity prec emax (numpy.sequential prec emax) u v = S754_nan.
Proof.
  intros H Hlen. unfold cosine_similarity, dot_product at 1, numpy.sequential at 1.
  rewrite (sequential_nan _ (products_of_nan u H v Hlen)). reflexivity.
Qed.

Lemma cosine_zero_left (u v : ndarray) :
  forallb is_zero u = true ->
  cosine_similarity prec emax (numpy.sequential prec emax) u v = S754_nan.
Proof.
  intro H. unfold cosine_similarity, euclidean_norm, dot_product, numpy.sequential.
  pose proof (sequential_zero_or_nan _ (products_of_zeros u H v)
                (S754_zero false) eq_refl) as Hnum.
  pose proof (sequential_zeros _ (squares_of_zeros u H)
                (S754_zero false) eq_refl) as Hnorm.
  destruct (fold_left (SFadd prec emax) (pairwise_products prec emax u u) _)
    as [su| | |]; try discriminate Hnorm.
  destruct (fold_left (SFadd prec emax) (pairwise_products prec emax u v) _)
    as [sn| | |]; try discriminate Hnum; [|reflexivity].
  cbn [SFsqrt].
  destruct (SFsqrt prec emax _) as [s|s| |s m e]; reflexivity.
Qed.
End Sequential.

(** X7: with the products added in order, [similarity] with the zero vector
    on either side (in particular of two empty vectors) is NaN, whatever the
    other vector of the same length holds; it neither raises nor returns 0
    or an infinity. *)
Theorem similarity_zero_vector_is_nan
    {S : Type} (prec emax : Z) (u v : ndarray) (w : World S)
    (Hnp : np (rt w) <> None) (Hlen : List.length u = List.length v)
    (Hzero : forallb is_zero u || forallb is_zero v = true) :
  BaseEmbeddings.similarity (S:=S) prec emax (numpy.sequential prec emax) u v w
  = (Ok S754_nan, w).
Proof.
  apply orb_prop in Hzero as [Hz|Hz].
  - rewrite similarity_run. destruct (np (rt w)); [|now elim Hnp].
    rewrite Hlen, Nat.eqb_refl, cosine_zero_left by exact Hz. reflexivity.
  - rewrite (similarity_comm prec emax _ u v w Hlen), similarity_run.
    destruct (np (rt w)); [|now elim Hnp].
    rewrite Hlen, Nat.eqb_refl, cosine_zero_left by exact Hz. reflexivity.
Qed.

Lemma similarity_zero_vector_is_nan_witness :
  similarity64 [f64 0 0; f64 0 0; f64 0 0] [f64 1 0; f64 5 600; f64 3 (-2)] ready
    = (Ok S754_nan, ready) /\
  similarity64 [] [] ready = (Ok S754_nan, ready).
Proof.
  split.
  - apply (similarity_zero_vector_is_nan 53 1024
             [f64 0 0; f64 0 0; f64 0 0] [f64 1 0; f64 5 600; f64 3 (-2)] ready).
    + simpl. discriminate.
    + reflexivity.
    + vm_compute. reflexivity.
  - apply (similarity_zero_vector_is_nan 53 1024 [] [] ready).
    + simpl. discriminate.
    + reflexivity.
    + reflexivity.
Defined.

(** X8: with the products added in order, a NaN anywhere in either vector
    makes [similarity] return NaN: the call does not raise, and no number
    comes out of it. *)
Theorem similarity_nan_propagates
    {S : Type} (prec emax : Z) (u v : ndarray) (w : World S)
    (Hnp : np (rt w) <> None) (Hlen : List.length u = List.length v)
    (Hnan : existsb is_nan u || existsb is_nan v = true) :
  BaseEmbeddings.similarity (S:=S) prec emax (numpy.sequential prec emax) u v w
  = (Ok S754_nan, w).
Proof.
  apply orb_prop in Hnan as [Hn|Hn].
  - rewrite similarity_run. destruct (np (rt w)); [|now elim Hnp].
    rewrite Hlen, Nat.eqb_refl, cosine_nan_left by (exact Hn || exact Hlen).
    reflexivity.
  - rewrite (similarity_comm prec emax _ u v w Hlen), similarity_run.
    destruct (np (rt w)); [|now elim Hnp].
    rewrite Hlen, Nat.eqb_refl, cosine_nan_left by (exact Hn || now symmetry).
    reflexivity.
Qed.

Lemma similarity_nan_propagates_witness :
  similarity64 [f64 1 0; f64 2 0] [f64 3 0; S754_nan] ready = (Ok S754_nan, ready).
Proof.
  apply (similarity_nan_propagates 53 1024 [f64 1 0; f64 2 0] [f64 3 0; S754_nan] ready).
  - simpl. discriminate.
  - reflexivity.
  - vm_compute. reflexivity.
Defined.

(** X9: [similarity] does not clamp its result.  For every float32 vector
    whose squared norm is computed as 2.0 (the vector (1, 1) is one),
    [similarity(u, u)] is the float after 1.0, about 1.0000001: the rounded
    norm 1.4142135 has a square that rounds below 2. *)
Theorem similarity32_squared_norm_two_is_above_one
    {S : Type} (reduce : list spec_float -> spec_float) (u : ndarray) (w : World S)
    (Hnp : np (rt w) <> None)
    (Htwo : dot_product 24 128 reduce u u = two32) :
  BaseEmbeddings.similarity (S:=S) 24 128 reduce u u w = (Ok above_one32, w) /\
  SFltb one32 above_one32 = true /\
  in_unit_interval above_one32 = false.
Proof.
  split; [|split; reflexivity].
  rewrite similarity_run. destruct (np (rt w)); [|now elim Hnp].
  rewrite Nat.eqb_refl. unfold cosine_similarity, euclidean_norm. rewrite Htwo.
  vm_compute. reflexivity.
Qed.

Lemma similarity32_squared_norm_two_is_above_one_witness :
  similarity32 [f32 1 0; f32 1 0] [f32 1 0; f32 1 0] ready = (Ok above_one32, ready).
Proof.
  apply (similarity32_squared_norm_two_is_above_one (numpy.sequential 24 128)
           [f32 1 0; f32 1 0] ready).
  - simpl. discriminate.
  - vm_compute. reflexivity.
Defined.

(** ** Construction, again *)


Example construct_twice :
  match BaseEmbeddings.construct counting (fresh ["numpy"]) with
  | (Ok _, w1) =>
      match BaseEmbeddings.construct lenient w1 with
      | (Ok _, w2) => rt w2 = rt w1 /\ trace w2 = [EvIsAvailable; EvIsAvailable]
      | (Raise _, _) => False
      end
  | (Raise _, _) => False
  end.
Proof. vm_compute. split; reflexivity. Qed.

(** ** The representation *)

Lemma append_length (a b : string) :
  String.length (String.append a b) = String.length a + String.length b.
Proof. induction a as [|c a IH]; simpl; [reflexivity|now rewrite IH]. Qed.

Lemma substring_append_prefix (a b : string) :
  substring 0 (String.length a) (String.append a b) = a.
Proof.
  induction a as [|c a IH]; simpl.
  - destruct b; reflexivity.
  - now rewrite IH.
Qed.

Lemma substring_append_suffix (a b : string) :
  substring (String.length a) (String.length b) (String.append a b) = b.
Proof.
  induction a as [|c a IH]; simpl; [|exact IH].
  induction b as [|c b IHb]; simpl; [reflexivity|now rewrite IHb].
Qed.

(** X12: the representation is the class name followed by "()", and nothing
    of the instance's state.  The class name can be read back from it by
    dropping the last two characters, so two instances have the same
    representation exactly when their classes have the same name. *)
Theorem repr_names_the_class (a b : string) :
  String.length (Super.__repr__ a) = String.length a + 2 /\
  substring 0 (String.length (Super.__repr__ a) - 2) (Super.__repr__ a) = a /\
  substring (String.length a) 2 (Super.__repr__ a) = "()" /\
  (Super.__repr__ a = Super.__repr__ b <-> a = b).
Proof.
  unfold Super.__repr__.
  assert (Hback : forall x,
            substring 0 (String.length (String.append x "()") - 2)
              (String.append x "()") = x).
  { intro x. rewrite append_length. simpl String.length.
    replace (String.length x + 2 - 2) with (String.length x) by lia.
    apply substring_append_prefix. }
  split; [apply append_length|]. split; [apply Hback|].
  split; [apply (substring_append_suffix a "()")|].
  split; [|now intros ->].
  intro H. rewrite <- (Hback a), <- (Hback b), H. reflexivity.
Qed.

Example repr_of_a_class :
  Super.__repr__ "SentenceTransformerEmbeddings" = "SentenceTransformerEmbeddings()".
Proof. reflexivity. Qed.

(** ** Similarity: signs *)
Section Signs.
Variables prec emax : Z.
Variable reduce : list spec_float -> spec_float.

Lemma SFmul_with_sign (s : bool) (x y : spec_float) :
  SFmul prec emax (with_sign s x) (with_sign s y) = SFmul prec emax x y.
Proof.
  destruct s; [|reflexivity]. unfold with_sign.
  destruct x as [[|]|[|]| |[|] mx ex], y as [[|]|[|]| |[|] my ey]; reflexivity.
Qed.

Lemma flip_signs_length (signs : list bool) (u : ndarray) :
  List.length (flip_signs signs u) = List.length u.
Proof.
  revert u. induction signs as [|s signs IH]; intros [|x u]; simpl; try reflexivity.
  now rewrite IH.
Qed.

Lemma pairwise_products_flip (signs : list bool) (u v : ndarray) :
  pairwise_products prec emax (flip_signs signs u) (flip_signs signs v)
  = pairwise_products prec emax u v.
Proof.
  revert u v. induction signs as [|s signs IH]; intros [|x u] [|y v]; simpl;
    try reflexivity.
  now rewrite IH, SFmul_with_sign.
Qed.

Lemma euclidean_norm_flip (signs : list bool) (u : ndarray) :
  euclidean_norm prec emax reduce (flip_signs signs u)
  = euclidean_norm prec emax reduce u.
Proof.
  unfold euclidean_norm, dot_product. now rewrite pairwise_products_flip.
Qed.
End Signs.

(** X13: the norm does not depend on the signs of the entries: changing the
    sign of any of the entries of a vector leaves its norm as it was.
    Changing the sign of the same entries in both vectors (of all of them:
    negating both vectors) leaves the outcome of [similarity] as it was, the
    same float or the same error, whatever the format and the order of the
    sum. *)
Theorem similarity_negate_both
    {S : Type} (prec emax : Z) (reduce : list spec_float -> spec_float)
    (signs : list bool) (u v : ndarray) (w : World S) :
  numpy.linalg_norm prec emax reduce (flip_signs signs u)
    = numpy.linalg_norm prec emax reduce u /\
  BaseEmbeddings.similarity (S:=S) prec emax reduce
      (flip_signs signs u) (flip_signs signs v) w
    = BaseEmbeddings.similarity (S:=S) prec emax reduce u v w /\
  flip_signs (map (fun _ => true) u) u = map SFopp u /\
  BaseEmbeddings.similarity (S:=S) prec emax reduce (map SFopp u) (map SFopp v) w
    = BaseEmbeddings.similarity (S:=S) prec emax reduce u v w.
Proof.
  assert (Hflip : forall signs',
            BaseEmbeddings.similarity (S:=S) prec emax reduce
              (flip_signs signs' u) (flip_signs signs' v) w
            = BaseEmbeddings.similarity (S:=S) prec emax reduce u v w).
  { intro signs'. rewrite !similarity_run, !flip_signs_length.
    unfold cosine_similarity. rewrite !euclidean_norm_flip. unfold dot_product.
    now rewrite pairwise_products_flip. }
  assert (Hall : forall x : ndarray, flip_signs (map (fun _ => true) x) x = map SFopp x).
  { induction x as [|a x IH]; simpl; [reflexivity|now rewrite IH]. }
  split; [rewrite !linalg_norm_euclidean; apply euclidean_norm_flip|].
  split; [apply Hflip|]. split; [apply Hall|].
  destruct (Nat.eq_dec (List.length u) (List.length v)) as [Hlen|Hlen].
  - rewrite <- (Hall u), <- (Hall v).
    replace (map (fun _ => true) v) with (map (fun _ : spec_float => true) u).
    + apply Hflip.
    + clear -Hlen. revert v Hlen.
      induction u as [|a u IH]; intros [|b v] Hlen; simpl in *;
        try discriminate; [reflexivity|]. f_equal. apply IH. lia.
  - rewrite !similarity_run, !length_map.
    destruct (Nat.eqb_spec (List.length u) (List.length v)) as [Heq|_];
      [now elim Hlen|reflexivity].
Qed.

Example norm_ignores_signs :
  norm64 [f64 3 0; f64 (-4) 0] = norm64 [f64 3 0; f64 4 0] /\
  similarity64 [f64 (-3) 0; f64 4 0] [f64 (-1) 0; f64 2 0] ready
    = similarity64 [f64 3 0; f64 4 0] [f64 1 0; f64 2 0] ready.
Proof. vm_compute. split; reflexivity. Qed.

(** ** Similarity: exactly 1.0 or -1.0 *)
Section ExactUnit.
Variables prec emax : Z.
Hypothesis Hprec : (2 <= prec)%Z.
Hypothesis Hemax : (prec < emax)%Z.

Lemma one_le_max_value : (1 <= max_value prec emax)%R.
Proof.
  unfold max_value, F2R.
  assert (1 <= IZR (2 ^ prec - 1))%R.
  { apply IZR_le.
    assert (2 ^ 1 <= 2 ^ prec)%Z by (apply Z.pow_le_mono_r; lia). lia. }
  pose proof (bpow_ge_1 (emax - prec) ltac:(lia)). nra.
Qed.

Lemma one_in_value : F2R (Zpos (Z.to_pos (2 ^ (prec - 1)))) (1 - prec) = 1%R.
Proof.
  assert (0 < 2 ^ (prec - 1))%Z by (apply Z.pow_pos_nonneg; lia).
  rewrite Z2Pos.id by assumption. rewrite F2R_pow2 by lia.
  replace (prec - 1 + (1 - prec))%Z with 0%Z by lia. apply bpow_0.
Qed.

Lemma one_in_canonical :
  canonical_mantissa prec emax (Z.to_pos (2 ^ (prec - 1))) (1 - prec) = true.
Proof.
  assert (0 < 2 ^ (prec - 1))%Z by (apply Z.pow_pos_nonneg; lia).
  unfold canonical_mantissa. apply Z.eqb_eq.
  change (Zpos (digits2_pos (Z.to_pos (2 ^ (prec - 1)))))
    with (Zdigits2 (Zpos (Z.to_pos (2 ^ (prec - 1))))).
  rewrite Z2Pos.id by assumption. rewrite Zdigits2_pow2 by lia.
  unfold fexp, emin. lia.
Qed.

(** The only canonical float of value 1 is [one_in]. *)
Lemma canonical_one (m : positive) (e : Z) :
  canonical_mantissa prec emax m e = true -> F2R (Zpos m) e = 1%R ->
  S754_finite false m e = one_in prec.
Proof.
  intros Hc Hv. apply canonical_digits in Hc as [He _].
  pose proof (F2R_digits_lower (Zpos m) e ltac:(lia)) as Hlo.
  pose proof (F2R_digits_upper (Zpos m) e ltac:(lia)) as Hhi.
  pose proof (F2R_lt (Zpos m) (Zpos m + 1) e ltac:(lia)) as Hlt.
  rewrite Hv in *.
  assert (Zdigits2 (Zpos m) + e = 1)%Z as Hmag.
  { assert (bpow (Zdigits2 (Zpos m) + e - 1) < bpow 1)%R as H1
      by (rewrite bpow_1; lra).
    assert (bpow 0 < bpow (Zdigits2 (Zpos m) + e))%R as H2
      by (rewrite bpow_0; lra).
    apply bpow_lt_inv in H1, H2. lia. }
  rewrite Hmag in He.
  assert (e = 1 - prec)%Z as -> by (unfold fexp, emin in He; lia).
  assert (Zpos m = 2 ^ (prec - 1))%Z as Hm.
  { pose proof one_in_value as H1.
    assert (0 < 2 ^ (prec - 1))%Z by (apply Z.pow_pos_nonneg; lia).
    rewrite Z2Pos.id in H1 by assumption.
    destruct (Z.lt_trichotomy (Zpos m) (2 ^ (prec - 1))) as [Hl|[Heq|Hg]];
      [|exact Heq|].
    - apply (F2R_lt _ _ (1 - prec)) in Hl. lra.
    - apply (F2R_lt _ _ (1 - prec)) in Hg. lra. }
  unfold one_in. f_equal. rewrite <- Hm. reflexivity.
Qed.

(** A rounding of 1 is 1. *)
Lemma rounds_to_one (y : spec_float) :
  rounds_to prec emax 1 y -> y = one_in prec.
Proof.
  intro Hr.
  pose proof (rounds_to_nearest prec emax Hprec 1 y _ _ Hr one_in_canonical) as Hn.
  rewrite one_in_value in Hn.
  replace (1 - 1)%R with 0%R in Hn by lra. rewrite Rabs_R0 in Hn.
  assert (B2R y = 1%R) as Hy.
  { pose proof (Rabs_pos (B2R y - 1)). apply Rabs_le_inv in Hn. lra. }
  destruct (rounds_to_positive prec emax 1 y Hr ltac:(lra)) as (m & e & -> & Hc & _).
  now apply canonical_one.
Qed.

Lemma binary_round_aux_sign (s : bool) (m e : Z) (l : location) :
  binary_round_aux prec emax s m e l
  = with_sign s (binary_round_aux prec emax false m e l).
Proof.
  unfold binary_round_aux.
  destruct (shr_fexp prec emax m e l) as [r1 e1].
  destruct (shr_fexp prec emax _ e1 loc_Exact) as [r2 e2].
  destruct s; [|reflexivity].
  destruct (shr_m r2); try reflexivity.
  destruct (e2 <=? emax - prec)%Z; reflexivity.
Qed.

(** A finite float divided by a float of the same magnitude is 1 or -1. *)
Lemma SFdiv_same_magnitude (sx sy : bool) (m : positive) (e : Z) :
  SFdiv prec emax (S754_finite sx m e) (S754_finite sy m e)
  = with_sign (xorb sx sy) (one_in prec).
Proof.
  assert (H1 : SFdiv prec emax (S754_finite false m e) (S754_finite false m e)
               = one_in prec).
  { apply rounds_to_one.
    assert (0 < F2R (Zpos m) e)%R as Hpos.
    { unfold F2R. apply Rmult_lt_0_compat; [apply IZR_lt; lia|apply bpow_pos]. }
    assert (F2R (Zpos m) e / F2R (Zpos m) e = 1)%R as Hq by (field; lra).
    rewrite <- Hq.
    apply SFdiv_rounds_to; try assumption; rewrite Hq.
    - rewrite <- bpow_0. apply bpow_le. unfold emin. lia.
    - apply one_le_max_value. }
  cbn [SFdiv] in *.
  destruct (SFdiv_core_binary prec emax (Zpos m) e (Zpos m) e) as [[mz ez] lz].
  rewrite binary_round_aux_sign. cbn [xorb] in H1. now rewrite H1.
Qed.
End ExactUnit.

Lemma float32_one (prec : Z) (s : bool) :
  (2 <= prec)%Z -> numpy.float32 (with_sign s (one_in prec)) = with_sign s one32.
Proof.
  intro Hprec.
  assert (H1 : binary_round 24 128 false (Z.to_pos (2 ^ (prec - 1))) (1 - prec) = one32).
  { change one32 with (one_in 24).
    apply (rounds_to_one 24 128 ltac:(lia) ltac:(lia)).
    rewrite <- (one_in_value prec Hprec) at 1.
    apply binary_round_rounds_to; try lia.
    rewrite (one_in_value prec Hprec). apply one_le_max_value; lia. }
  destruct s; cbn [with_sign SFopp one_in numpy.float32 negb]; [|exact H1].
  unfold binary_round in *.
  destruct (shl_align _ _ _) as [mz ez].
  rewrite (binary_round_aux_sign 24 128 true), H1. reflexivity.
Qed.

(** X14: when the dot product is finite and has exactly the magnitude of the
    product of the norms, [similarity] is exactly 1.0, or exactly -1.0 when
    the dot product is negative: a float divided by itself is 1 without any
    rounding error, and 1 is a binary32 float. *)
Theorem similarity_equal_magnitudes_is_unit
    {S : Type} (prec emax : Z) (reduce : list spec_float -> spec_float)
    (Hprec : (2 <= prec)%Z) (Hemax : (prec < emax)%Z)
    (u v : ndarray) (w : World S)
    (Hnp : np (rt w) <> None) (Hlen : List.length u = List.length v)
    (s : bool) (m : positive) (e : Z)
    (Hnum : dot_product prec emax reduce u v = S754_finite s m e)
    (Hden : SFmul prec emax (euclidean_norm prec emax reduce u)
                            (euclidean_norm prec emax reduce v)
            = S754_finite false m e) :
  BaseEmbeddings.similarity (S:=S) prec emax reduce u v w
  = (Ok (with_sign s one32), w).
Proof.
  rewrite similarity_run. destruct (np (rt w)); [|now elim Hnp].
  rewrite Hlen, Nat.eqb_refl. unfold cosine_similarity.
  rewrite Hnum, Hden, (SFdiv_same_magnitude prec emax Hprec Hemax).
  rewrite xorb_false_r, float32_one by exact Hprec. reflexivity.
Qed.

Lemma similarity_equal_magnitudes_is_unit_witness :
  similarity64 [f64 3 0; f64 4 0] [f64 3 0; f64 4 0] ready = (Ok one32, ready) /\
  similarity64 [f64 3 0; f64 4 0] [f64 (-3) 0; f64 (-4) 0] ready
    = (Ok (SFopp one32), ready).
Proof.
  split.
  - apply (similarity_equal_magnitudes_is_unit 53 1024 (numpy.sequential 53 1024)
             ltac:(lia) ltac:(lia) [f64 3 0; f64 4 0] [f64 3 0; f64 4 0] ready
             ltac:(simpl; discriminate) eq_refl
             false 7036874417766400 (-48)); vm_compute; reflexivity.
  - apply (similarity_equal_magnitudes_is_unit 53 1024 (numpy.sequential 53 1024)
             ltac:(lia) ltac:(lia) [f64 3 0; f64 4 0] [f64 (-3) 0; f64 (-4) 0] ready
             ltac:(simpl; discriminate) eq_refl
             true 7036874417766400 (-48)); vm_compute; reflexivity.
Defined.
